(** * The timeout daemon of tcp/internal/timeout

    A shallow embedding of [timeout.go]: the [Timeout] record and its
    [Cancel] method, the [heapTimeouts] slice with the [container/heap]
    operations the daemon calls on it, and the interleavings of the daemon
    goroutine with the goroutines that call [AddTimeout], [Stop] and
    [Cancel], as a step function over an explicit state. *)

From Stdlib Require Import ZArith Lia ZifyNat.
From stdpp Require Import base tactics option list.

Local Open Scope Z_scope.

Ltac Zify.zify_post_hook ::= Z.to_euclidean_division_equations.

#[local] Set Warnings "-clear-no-such-hyp".

(** ** Instants of the monotonic clock

    [NowMonotonic] returns [time.Unix(now/1e9, now%1e9)] for the
    nanosecond counter [now] of [runtime.nanotime]; an instant is modelled
    by that counter, [After] and [Before] by the strict order on it, and
    [Sub] by the difference (a [Duration] saturates at the ends of int64,
    which no counter of nanoseconds since boot comes near). *)

Abbreviation Time := Z.
Abbreviation Duration := Z.

Definition After (a b : Time) : bool := b <? a.
Definition Before (a b : Time) : bool := a <? b.
Definition Sub (a b : Time) : Duration := a - b.

(** ** Timeout records *)

Record Timeout := mkTimeout {
  f : nat;       (* the callback, by name *)
  t : Time;
  cancel : Z     (* uint32: 1 if cancelled, 0 otherwise *)
}.

(** [func (t *Timeout) Cancel()]: [atomic.StoreUint32(&t.cancel, 1)]. *)
Definition Cancel (x : Timeout) : Timeout :=
  {| f := f x; t := t x; cancel := 1 |}.

(** A [*Timeout] is an index into the store of allocated records; the
    client's handle and the heap entry are the same index. *)
Abbreviation ptr := nat.
Abbreviation Store := (list Timeout).

Definition zeroTimeout : Timeout := mkTimeout 0%nat 0 0.

Definition deref (st : list Timeout) (p : nat) : Timeout :=
  default zeroTimeout (st !! p).

(** ** heapTimeouts and container/heap

    [heapTimeouts] is a slice of [*Timeout] with the five methods of
    [heap.Interface]; [heap.Push], [heap.Pop] and the loops [up] and [down]
    behind them are those of Go's standard library, which the daemon calls
    on the slice. *)

Abbreviation heapTimeouts := (list nat).

Section Heap.
Variable st : list Timeout.

Definition key (p : nat) : Z := t (deref st p).

Definition Len (h : list nat) : nat := length h.

(** [Less(i, j)]: is the deadline of entry [i] before that of entry
    [j]; [None] is the index-out-of-range panic. *)
Definition Less (h : list nat) (i j : nat) : option bool :=
  match h !! i, h !! j with
  | Some a, Some b => Some (Before (key a) (key b))
  | _, _ => None
  end.

(** [Swap(i, j)]: entries [i] and [j] exchange their contents. *)
Definition Swap (h : list nat) (i j : nat) : option (list nat) :=
  match h !! i, h !! j with
  | Some a, Some b => Some (<[i := b]> (<[j := a]> h))
  | _, _ => None
  end.

(** [Push(x)]: append [x] to the slice. *)
Definition Push (h : list nat) (x : nat) : list nat := h ++ [x].

(** [Pop()]: cut the last entry off the slice and return it. *)
Definition Pop (h : list nat) : option (nat * list nat) :=
  match length h with
  | O => None
  | S n => match h !! n with
           | Some x => Some (x, take n h)
           | None => None
           end
  end.

(** [heap.up]: the parent of [j] is [(j - 1) / 2]; for [j = 0] Go's
    truncated division gives [0], as does the subtraction on [nat].
    The loop is unrolled [fuel] times; [None] is a panic or no fuel. *)
Fixpoint up (fuel : nat) (h : list nat) (j : nat) : option (list nat) :=
  match fuel with
  | O => None
  | S fuel' =>
      let i := ((j - 1) / 2)%nat in
      if (i =? j)%nat then Some h
      else match Less h j i with
           | None => None
           | Some false => Some h
           | Some true =>
               match Swap h i j with
               | None => None
               | Some h' => up fuel' h' i
               end
           end
  end.

(** [heap.down], without its boolean result, which [heap.Pop] drops. *)
Fixpoint down (fuel : nat) (h : list nat) (i n : nat) : option (list nat) :=
  match fuel with
  | O => None
  | S fuel' =>
      let j1 := (2 * i + 1)%nat in
      if (n <=? j1)%nat then Some h
      else
        let j2 := (j1 + 1)%nat in
        match (if (j2 <? n)%nat then Less h j2 j1 else Some false) with
        | None => None
        | Some c =>
            let j := if c then j2 else j1 in
            match Less h j i with
            | None => None
            | Some false => Some h
            | Some true =>
                match Swap h i j with
                | None => None
                | Some h' => down fuel' h' j n
                end
            end
        end
  end.

(** [heap.Push(h, x)]: [h.Push(x); up(h, h.Len()-1)] *)
Definition heap_Push (h : list nat) (x : nat) : option (list nat) :=
  let h1 := Push h x in
  up (Len h1) h1 (Len h1 - 1).

(** [heap.Pop(h)]: [n := h.Len() - 1; h.Swap(0, n); down(h, 0, n);
    return h.Pop()].  On the empty heap [n] is [-1] and [Swap] panics;
    here [n] is [0] and [Swap] fails on index 0. *)
Definition heap_Pop (h : list nat) : option (nat * list nat) :=
  let n := (Len h - 1)%nat in
  match Swap h 0 n with
  | None => None
  | Some h1 =>
      match down (S n) h1 0 n with
      | None => None
      | Some h2 => Pop h2
      end
  end.

(** [d.peek()]: [d.timeouts[0]] *)
Definition peek (h : list nat) : option nat := h !! 0%nat.

(** The heap order: no entry is before its parent. *)
Definition heap_upto (n : nat) (h : list nat) : Prop :=
  ∀ k a b, (0 < k < n)%nat → h !! k = Some a → h !! ((k - 1) / 2)%nat = Some b →
           key b ≤ key a.

Definition is_heap (h : list nat) : Prop := heap_upto (length h) h.

(** The order while [up] carries entry [j] towards the root: every
    entry but [j] respects its parent, and the children of [j] respect
    the parent of [j]. *)
Definition up_inv (h : list nat) (j : nat) : Prop :=
  (∀ k a b, (0 < k)%nat → k ≠ j → h !! k = Some a →
            h !! ((k - 1) / 2)%nat = Some b → key b ≤ key a) ∧
  (∀ k a b, (0 < j)%nat → (0 < k)%nat → ((k - 1) / 2)%nat = j → h !! k = Some a →
            h !! ((j - 1) / 2)%nat = Some b → key b ≤ key a).

(** The order while [down] carries entry [i] towards the leaves, among
    the first [n] entries: every entry respects its parent unless that
    parent is [i], and the children of [i] respect the parent of [i]. *)
Definition down_inv (h : list nat) (i n : nat) : Prop :=
  (∀ k a b, (0 < k < n)%nat → ((k - 1) / 2)%nat ≠ i → h !! k = Some a →
            h !! ((k - 1) / 2)%nat = Some b → key b ≤ key a) ∧
  (∀ k a b, (0 < i)%nat → (0 < k < n)%nat → ((k - 1) / 2)%nat = i → h !! k = Some a →
            h !! ((i - 1) / 2)%nat = Some b → key b ≤ key a).

End Heap.

(** ** Goroutines, locks and the state of a run *)

Inductive tid := Worker | Client (c : nat).

#[global] Instance tid_eq_dec : EqDecision tid.
Proof. solve_decision. Defined.

(** [d.mu] and [d.locker] *)
Inductive Mutex := MInt | MExt.

(** Where the daemon goroutine stands in [func (d *Daemon) daemon()], by
    the line of the statement it executes next, with the locals that are
    live there. *)
Inductive WPc :=
| W166                        (* d.mu.Lock() *)
| W167                        (* if d.stopped; if len(d.timeouts) == 0 *)
| W168                        (* d.mu.Unlock(); return *)
| W174                        (* d.cond.Wait(): join the notify list, unlock *)
| W174w                       (* d.cond.Wait(): parked until a Broadcast *)
| W174l                       (* d.cond.Wait(): lock again *)
| W175                        (* if d.stopped *)
| W176                        (* d.mu.Unlock(); return *)
| W188                        (* to := d.peek(); now := NowMonotonic(); if now.After(to.t) *)
| W193 (to : nat) (now : Z)   (* d.mu.Unlock() *)
| W194 (to : nat) (now : Z)   (* time.After(to.t.Sub(now)) *)
| W195 (expiry : Z)           (* select: the timer or d.wake *)
| W198                        (* d.mu.Lock() *)
| W199                        (* if d.stopped *)
| W200                        (* d.mu.Unlock(); return *)
| W205                        (* to := heap.Pop(&d.timeouts) *)
| W206 (to : nat)             (* if atomic.LoadUint32(&to.cancel) == 0 *)
| W211 (to : nat)             (* d.mu.Unlock() *)
| W212 (to : nat)             (* d.locker.Lock() *)
| W213 (to : nat)             (* d.mu.Lock() *)
| W214 (to : nat)             (* if d.stopped *)
| W215                        (* d.mu.Unlock() *)
| W216                        (* d.locker.Unlock(); return *)
| W230 (to : nat)             (* if atomic.LoadUint32(&to.cancel) == 0 *)
| W233 (to : nat)             (* to.f() is called *)
| W233r (to : nat)            (* to.f() is running *)
| W235                        (* d.locker.Unlock() *)
| W237                        (* d.mu.Unlock() *)
| WRet                        (* returned *)
| WPanic.                     (* index out of range *)

(** Where a client goroutine stands in a call of [AddTimeout] or [Stop]. *)
Inductive CPc :=
| CIdle
| A149 (to : nat)             (* d.mu.Lock() *)
| A150 (to : nat)             (* heap.Push; if len(d.timeouts) == 1: Broadcast *)
| A156 (to : nat)             (* select: d.wake <- struct{}{} or default *)
| A160 (to : nat)             (* d.mu.Unlock() *)
| A161 (to : nat)             (* return to *)
| S130                        (* d.mu.Lock() *)
| S131                        (* d.stopped = true; if len(d.timeouts) == 0: Broadcast *)
| S136                        (* select: d.wake <- struct{}{} or default *)
| S140                        (* d.mu.Unlock() *)
| S141                        (* return *)
| CPanic.

(** What a run records.  [ELock] and [EUnlock] are those of the daemon
    goroutine. *)
Inductive Event :=
| EPush (r : nat)
| EPop (r : nat)
| EFire (r : nat) (clk : Z)   (* to.f() entered, with the clock at entry *)
| EReturn (r : nat)           (* to.f() returned *)
| ELock (m : Mutex)
| EUnlock (m : Mutex)
| EAddRet (c : nat) (r : nat)
| EStopRet (c : nat).

(** The fields of [Daemon], the allocated [Timeout]s, the clock behind
    [nanotime], the goroutines, and the events so far, newest first. *)
Record State := mkState {
  locker : option tid;        (* who holds d.locker *)
  timeouts : list nat;
  cond : bool;                (* the daemon is on d.cond's notify list *)
  wake : bool;                (* d.wake, of capacity 1, holds a token *)
  stopped : bool;
  mu : option tid;            (* who holds d.mu *)
  store : list Timeout;
  clock : Z;
  wpc : WPc;
  cpc : nat → CPc;
  trace : list Event
}.

Definition set_locker (x : option tid) (s : State) : State :=
  mkState x (timeouts s) (cond s) (wake s) (stopped s) (mu s) (store s)
          (clock s) (wpc s) (cpc s) (trace s).
Definition set_timeouts (x : list nat) (s : State) : State :=
  mkState (locker s) x (cond s) (wake s) (stopped s) (mu s) (store s)
          (clock s) (wpc s) (cpc s) (trace s).
Definition set_cond (x : bool) (s : State) : State :=
  mkState (locker s) (timeouts s) x (wake s) (stopped s) (mu s) (store s)
          (clock s) (wpc s) (cpc s) (trace s).
Definition set_wake (x : bool) (s : State) : State :=
  mkState (locker s) (timeouts s) (cond s) x (stopped s) (mu s) (store s)
          (clock s) (wpc s) (cpc s) (trace s).
Definition set_stopped (x : bool) (s : State) : State :=
  mkState (locker s) (timeouts s) (cond s) (wake s) x (mu s) (store s)
          (clock s) (wpc s) (cpc s) (trace s).
Definition set_mu (x : option tid) (s : State) : State :=
  mkState (locker s) (timeouts s) (cond s) (wake s) (stopped s) x (store s)
          (clock s) (wpc s) (cpc s) (trace s).
Definition set_store (x : list Timeout) (s : State) : State :=
  mkState (locker s) (timeouts s) (cond s) (wake s) (stopped s) (mu s) x
          (clock s) (wpc s) (cpc s) (trace s).
Definition set_clock (x : Z) (s : State) : State :=
  mkState (locker s) (timeouts s) (cond s) (wake s) (stopped s) (mu s) (store s)
          x (wpc s) (cpc s) (trace s).
Definition set_wpc (x : WPc) (s : State) : State :=
  mkState (locker s) (timeouts s) (cond s) (wake s) (stopped s) (mu s) (store s)
          (clock s) x (cpc s) (trace s).
Definition upd (c : nat) (x : CPc) (g : nat → CPc) : nat → CPc :=
  λ c', if (c' =? c)%nat then x else g c'.
Definition set_cpc (c : nat) (x : CPc) (s : State) : State :=
  mkState (locker s) (timeouts s) (cond s) (wake s) (stopped s) (mu s) (store s)
          (clock s) (wpc s) (upd c x (cpc s)) (trace s).
Definition log (e : Event) (s : State) : State :=
  mkState (locker s) (timeouts s) (cond s) (wake s) (stopped s) (mu s) (store s)
          (clock s) (wpc s) (cpc s) (e :: trace s).

(** [NowMonotonic()]: the clock is read. *)
Definition NowMonotonic (s : State) : Z := clock s.

Arguments NowMonotonic s /.

(** [NewDaemon(locker)], called when the clock reads [now]: every field is
    the zero value, no goroutine has called anything yet, and the daemon
    goroutine is at the top of its loop. *)
Definition NewDaemon (now : Z) : State :=
  mkState None [] false false false None [] now W166 (λ _, CIdle) [].

(** [sync.Mutex]: [Lock] blocks while the mutex is held. *)
Definition Lock_mu (who : tid) (s : State) : option State :=
  match mu s with
  | None => Some (set_mu (Some who) s)
  | Some _ => None
  end.
Definition Unlock_mu (s : State) : State := set_mu None s.
Definition Lock_locker (who : tid) (s : State) : option State :=
  match locker s with
  | None => Some (set_locker (Some who) s)
  | Some _ => None
  end.
Definition Unlock_locker (s : State) : State := set_locker None s.

(** [d.cond.Broadcast()]: whoever is on the notify list is woken.  The
    daemon goroutine is the only one that ever waits, and in Go [Wait]
    does not return unless woken by [Broadcast] or [Signal]. *)
Definition Broadcast (s : State) : State := set_cond false s.

(** [select { case d.wake <- struct{}{}: default: }]: afterwards the
    channel holds its one token. *)
Definition send_wake (s : State) : State := set_wake true s.

(** One statement of the daemon goroutine; [None] when it blocks. *)
Definition daemon (s : State) : option State :=
  match wpc s with
  | W166 => s' ← Lock_mu Worker s; Some (set_wpc W167 (log (ELock MInt) s'))
  | W167 =>
      Some (set_wpc (if stopped s then W168
                     else if (Len (timeouts s) =? 0)%nat then W174 else W188) s)
  | W168 => Some (set_wpc WRet (log (EUnlock MInt) (Unlock_mu s)))
  | W174 => Some (set_wpc W174w (log (EUnlock MInt) (Unlock_mu (set_cond true s))))
  | W174w => if cond s then None else Some (set_wpc W174l s)
  | W174l => s' ← Lock_mu Worker s; Some (set_wpc W175 (log (ELock MInt) s'))
  | W175 => Some (set_wpc (if stopped s then W176 else W188) s)
  | W176 => Some (set_wpc WRet (log (EUnlock MInt) (Unlock_mu s)))
  | W188 =>
      match peek (timeouts s) with
      | None => Some (set_wpc WPanic s)
      | Some to =>
          let now := NowMonotonic s in
          if After now (t (deref (store s) to))
          then Some (set_wpc W205 s)
          else Some (set_wpc (W193 to now) s)
      end
  | W193 to now => Some (set_wpc (W194 to now) (log (EUnlock MInt) (Unlock_mu s)))
  | W194 to now =>
      Some (set_wpc (W195 (clock s + Sub (t (deref (store s) to)) now)) s)
  | W195 _ => None
  | W198 => s' ← Lock_mu Worker s; Some (set_wpc W199 (log (ELock MInt) s'))
  | W199 => Some (set_wpc (if stopped s then W200 else W188) s)
  | W200 => Some (set_wpc WRet (log (EUnlock MInt) (Unlock_mu s)))
  | W205 =>
      match heap_Pop (store s) (timeouts s) with
      | None => Some (set_wpc WPanic s)
      | Some (to, h) => Some (set_wpc (W206 to) (log (EPop to) (set_timeouts h s)))
      end
  | W206 to =>
      Some (set_wpc (if cancel (deref (store s) to) =? 0 then W211 to else W237) s)
  | W211 to => Some (set_wpc (W212 to) (log (EUnlock MInt) (Unlock_mu s)))
  | W212 to => s' ← Lock_locker Worker s; Some (set_wpc (W213 to) (log (ELock MExt) s'))
  | W213 to => s' ← Lock_mu Worker s; Some (set_wpc (W214 to) (log (ELock MInt) s'))
  | W214 to => Some (set_wpc (if stopped s then W215 else W230 to) s)
  | W215 => Some (set_wpc W216 (log (EUnlock MInt) (Unlock_mu s)))
  | W216 => Some (set_wpc WRet (log (EUnlock MExt) (Unlock_locker s)))
  | W230 to =>
      Some (set_wpc (if cancel (deref (store s) to) =? 0 then W233 to else W235) s)
  | W233 to => Some (set_wpc (W233r to) (log (EFire to (clock s)) s))
  | W233r to => Some (set_wpc W235 (log (EReturn to) s))
  | W235 => Some (set_wpc W237 (log (EUnlock MExt) (Unlock_locker s)))
  | W237 => Some (set_wpc W166 (log (EUnlock MInt) (Unlock_mu s)))
  | WRet => None
  | WPanic => None
  end.

(** The select at line 194: the timer of [time.After] has expired. *)
Definition daemon_timer (s : State) : option State :=
  match wpc s with
  | W195 expiry => if expiry <=? clock s then Some (set_wpc W198 s) else None
  | _ => None
  end.

(** The select at line 194: a token is received from [d.wake]. *)
Definition daemon_wake (s : State) : option State :=
  match wpc s with
  | W195 _ => if wake s then Some (set_wpc W198 (set_wake false s)) else None
  | _ => None
  end.

(** [to := &Timeout{f: f, t: t}], the first statement of [AddTimeout]. *)
Definition call_AddTimeout (c : nat) (f0 : nat) (t0 : Z) (s : State) : option State :=
  match cpc s c with
  | CIdle =>
      Some (set_cpc c (A149 (length (store s)))
                    (set_store (store s ++ [mkTimeout f0 t0 0]) s))
  | _ => None
  end.

Definition call_Stop (c : nat) (s : State) : option State :=
  match cpc s c with
  | CIdle => Some (set_cpc c S130 s)
  | _ => None
  end.

(** One statement of the call in progress in client goroutine [c]. *)
Definition client (c : nat) (s : State) : option State :=
  match cpc s c with
  | CIdle => None
  | A149 to => s' ← Lock_mu (Client c) s; Some (set_cpc c (A150 to) s')
  | A150 to =>
      match heap_Push (store s) (timeouts s) to with
      | None => Some (set_cpc c CPanic s)
      | Some h =>
          let s1 := log (EPush to) (set_timeouts h s) in
          Some (set_cpc c (A156 to)
                        (if (Len h =? 1)%nat then Broadcast s1 else s1))
      end
  | A156 to => Some (set_cpc c (A160 to) (send_wake s))
  | A160 to => Some (set_cpc c (A161 to) (Unlock_mu s))
  | A161 to => Some (set_cpc c CIdle (log (EAddRet c to) s))
  | S130 => s' ← Lock_mu (Client c) s; Some (set_cpc c S131 s')
  | S131 =>
      let s1 := set_stopped true s in
      Some (set_cpc c S136
                    (if (Len (timeouts s1) =? 0)%nat then Broadcast s1 else s1))
  | S136 => Some (set_cpc c S140 (send_wake s))
  | S140 => Some (set_cpc c S141 (Unlock_mu s))
  | S141 => Some (set_cpc c CIdle (log (EStopRet c) s))
  | CPanic => None
  end.

(** A client goroutine that is not inside a call takes or gives back the
    lock it handed to [NewDaemon]. *)
Definition client_Lock (c : nat) (s : State) : option State :=
  match cpc s c with
  | CIdle => Lock_locker (Client c) s
  | _ => None
  end.

Definition client_Unlock (c : nat) (s : State) : option State :=
  match cpc s c, locker s with
  | CIdle, Some (Client c') => if (c' =? c)%nat then Some (Unlock_locker s) else None
  | _, _ => None
  end.

(** [r.Cancel()] on an allocated record, from any goroutine. *)
Definition do_Cancel (r : nat) (s : State) : option State :=
  match store s !! r with
  | Some x => Some (set_store (<[r := Cancel x]> (store s)) s)
  | None => None
  end.

(** The clock advances. *)
Definition tick (dt : Z) (s : State) : option State :=
  if 0 <=? dt then Some (set_clock (clock s + dt) s) else None.

Inductive Action :=
| ATick (dt : Z)
| ADaemon
| ATimer
| AWake
| ACallAddTimeout (c : nat) (f0 : nat) (t0 : Z)
| ACallStop (c : nat)
| AClient (c : nat)
| ALock (c : nat)
| AUnlock (c : nat)
| ACancel (r : nat).

Definition step (s : State) (a : Action) : option State :=
  match a with
  | ATick dt => tick dt s
  | ADaemon => daemon s
  | ATimer => daemon_timer s
  | AWake => daemon_wake s
  | ACallAddTimeout c f0 t0 => call_AddTimeout c f0 t0 s
  | ACallStop c => call_Stop c s
  | AClient c => client c s
  | ALock c => client_Lock c s
  | AUnlock c => client_Unlock c s
  | ACancel r => do_Cancel r s
  end.

Fixpoint run (acts : list Action) (s : State) : option State :=
  match acts with
  | [] => Some s
  | a :: acts' =>
      match step s a with
      | Some s' => run acts' s'
      | None => None
      end
  end.

Inductive reachable (s0 : State) : State → Prop :=
| reach_refl : reachable s0 s0
| reach_step s a s' : reachable s0 s → step s a = Some s' → reachable s0 s'.

(** ** Invariants of a run *)

(** The statements at which the daemon goroutine holds [d.mu]; a
    goroutine that panics keeps what it holds. *)
Definition w_holds_mu (pc : WPc) : bool :=
  match pc with
  | W167 | W168 | W174 | W175 | W176 | W188 | W193 _ _ | W199 | W200 | W205
  | W206 _ | W211 _ | W214 _ | W215 | W230 _ | W233 _ | W233r _ | W235 | W237
  | WPanic => true
  | _ => false
  end.

Definition w_holds_locker (pc : WPc) : bool :=
  match pc with
  | W213 _ | W214 _ | W215 | W216 | W230 _ | W233 _ | W233r _ | W235 => true
  | _ => false
  end.

Definition c_holds_mu (pc : CPc) : bool :=
  match pc with
  | A150 _ | A156 _ | A160 _ | S131 | S136 | S140 | CPanic => true
  | _ => false
  end.

Definition Inv_lock (s : State) : Prop :=
  w_holds_mu (wpc s) = bool_decide (mu s = Some Worker) ∧
  (∀ c, c_holds_mu (cpc s c) = bool_decide (mu s = Some (Client c))) ∧
  w_holds_locker (wpc s) = bool_decide (locker s = Some Worker).

(** The record a goroutine has in its local [to]. *)
Definition w_to (pc : WPc) : option nat :=
  match pc with
  | W193 r _ | W194 r _ | W206 r | W211 r | W212 r | W213 r | W214 r | W230 r
  | W233 r | W233r r => Some r
  | _ => None
  end.

Definition c_to (pc : CPc) : option nat :=
  match pc with
  | A149 r | A150 r | A156 r | A160 r | A161 r => Some r
  | _ => None
  end.

(** Every pointer in use is allocated, the slice is heap-ordered, and no
    client has panicked in [heap.Push]. *)
Definition Inv_valid (s : State) : Prop :=
  (∀ r, r ∈ timeouts s → (r < length (store s))%nat) ∧
  (∀ c r, c_to (cpc s c) = Some r → (r < length (store s))%nat) ∧
  (∀ r, w_to (wpc s) = Some r → (r < length (store s))%nat) ∧
  is_heap (store s) (timeouts s) ∧
  (∀ c, cpc s c ≠ CPanic).

(** The statements of the daemon goroutine that rely on a non-empty heap,
    from the first [d.peek()] to [heap.Pop]. *)
Definition w_needs_heap (pc : WPc) : bool :=
  match pc with
  | W188 | W193 _ _ | W194 _ _ | W195 _ | W198 | W199 | W205 => true
  | _ => false
  end.

(** The daemon goroutine has been woken from [d.cond.Wait()] and has not
    yet looked at [d.stopped]. *)
Definition w_woken (s : State) : bool :=
  match wpc s with
  | W174l | W175 => true
  | W174w => negb (cond s)
  | _ => false
  end.

Definition Inv_nonempty (s : State) : Prop :=
  wpc s ≠ WPanic ∧
  (w_needs_heap (wpc s) = true → timeouts s ≠ []) ∧
  (w_woken s = true → stopped s = true ∨ timeouts s ≠ []).

(** The record the daemon goroutine has popped and not yet let go. *)
Definition w_popped (pc : WPc) : option nat :=
  match pc with
  | W206 r | W211 r | W212 r | W213 r | W214 r | W230 r | W233 r | W233r r => Some r
  | _ => None
  end.

(** Once the sleep loop is left, the deadline of the record at the top of
    the heap, then of the popped record, is behind the clock; so it was
    for every callback at its entry. *)
Definition Inv_deadline (s : State) : Prop :=
  (wpc s = W205 → ∃ r, peek (timeouts s) = Some r ∧ key (store s) r < clock s) ∧
  (∀ r, w_popped (wpc s) = Some r → key (store s) r < clock s) ∧
  (∀ r clk, EFire r clk ∈ trace s →
            (r < length (store s))%nat ∧ key (store s) r < clk ∧ clk ≤ clock s).

Definition is_StopRet (e : Event) : bool :=
  match e with EStopRet _ => true | _ => false end.

(** Some call of [Stop] has returned. *)
Definition Stop_returned (tr : list Event) : bool := existsb is_StopRet tr.

(** The statements of [Stop] after [d.stopped = true]. *)
Definition c_after_store (pc : CPc) : bool :=
  match pc with S136 | S140 | S141 => true | _ => false end.

(** The statements of the daemon goroutine between the last look at
    [d.stopped] and the return of the callback. *)
Definition w_firing (pc : WPc) : bool :=
  match pc with W230 _ | W233 _ | W233r _ => true | _ => false end.

Definition Inv_stop (s : State) : Prop :=
  (Stop_returned (trace s) = true → stopped s = true) ∧
  (∀ c, c_after_store (cpc s c) = true → stopped s = true) ∧
  (w_firing (wpc s) = true → stopped s = false) ∧
  (∀ a r clk b, trace s = a ++ EFire r clk :: b → Stop_returned b = false).

(** The records pushed, popped, fired and returned from in a run, newest
    first. *)
Fixpoint pushed (tr : list Event) : list nat :=
  match tr with
  | [] => []
  | EPush r :: tr => r :: pushed tr
  | _ :: tr => pushed tr
  end.

Fixpoint popped (tr : list Event) : list nat :=
  match tr with
  | [] => []
  | EPop r :: tr => r :: popped tr
  | _ :: tr => popped tr
  end.

Fixpoint fired (tr : list Event) : list nat :=
  match tr with
  | [] => []
  | EFire r _ :: tr => r :: fired tr
  | _ :: tr => fired tr
  end.

Fixpoint returned (tr : list Event) : list nat :=
  match tr with
  | [] => []
  | EReturn r :: tr => r :: returned tr
  | _ :: tr => returned tr
  end.

(** The record of the most recent [heap.Pop]. *)
Definition last_pop (tr : list Event) : option nat := head (popped tr).

(** The record a call of [AddTimeout] has allocated and not yet pushed,
    and the one it has pushed. *)
Definition pending (pc : CPc) : option nat :=
  match pc with A149 r | A150 r => Some r | _ => None end.

Definition c_pushed (pc : CPc) : option nat :=
  match pc with A156 r | A160 r | A161 r => Some r | _ => None end.

(** Pushed records are in the heap or have been popped, no record is
    pushed twice, and a record on its way to the heap is in one call of
    [AddTimeout] only. *)
Definition Inv_push (s : State) : Prop :=
  pushed (trace s) ≡ₚ timeouts s ++ popped (trace s) ∧
  NoDup (pushed (trace s)) ∧
  (∀ r, r ∈ pushed (trace s) → (r < length (store s))%nat) ∧
  (∀ c r, pending (cpc s c) = Some r → r ∉ pushed (trace s)) ∧
  (∀ c c' r, pending (cpc s c) = Some r → pending (cpc s c') = Some r → c = c') ∧
  (∀ c r, c_pushed (cpc s c) = Some r → r ∈ pushed (trace s)) ∧
  (∀ c r, EAddRet c r ∈ trace s → r ∈ pushed (trace s)).

(** The popped record before its callback is entered. *)
Definition w_prefire (pc : WPc) : option nat :=
  match pc with
  | W206 r | W211 r | W212 r | W213 r | W214 r | W230 r | W233 r => Some r
  | _ => None
  end.

(** A callback is entered only for the record of the latest [heap.Pop],
    once, and has returned by the next [heap.Pop]. *)
Definition Inv_fire (s : State) : Prop :=
  (∀ r, w_prefire (wpc s) = Some r → r ∉ fired (trace s)) ∧
  (∀ r, w_popped (wpc s) = Some r → last_pop (trace s) = Some r) ∧
  (∀ r, r ∈ fired (trace s) → r ∈ popped (trace s)) ∧
  NoDup (fired (trace s)) ∧
  (∀ a r clk b, trace s = a ++ EFire r clk :: b → last_pop b = Some r) ∧
  (∀ r, r ∈ fired (trace s) → r ∈ returned (trace s) ∨ wpc s = W233r r) ∧
  (∀ a r b, trace s = a ++ EPop r :: b → ∀ r', r' ∈ fired b → r' ∈ returned b).

(** A record is popped only after every pushed record with an earlier
    deadline has been. *)
Definition Inv_order (s : State) : Prop :=
  ∀ a r2 b, trace s = a ++ EPop r2 :: b →
  ∀ r1, r1 ∈ pushed b → key (store s) r1 < key (store s) r2 → r1 ∈ popped b.

(** The mutexes the daemon goroutine unlocks in a stretch of a run, newest
    first. *)
Fixpoint unlocks (tr : list Event) : list Mutex :=
  match tr with
  | [] => []
  | EUnlock m :: tr => m :: unlocks tr
  | _ :: tr => unlocks tr
  end.

(** After every return of a callback, the daemon goroutine's next unlock,
    if any, is of [m1], and the one after that, if any, is of [m2]. *)
Definition released_in_order (m1 m2 : Mutex) (tr : list Event) : Prop :=
  ∀ a r b, tr = a ++ EReturn r :: b →
    unlocks a = [] ∨ unlocks a = [m1] ∨ ∃ u, unlocks a = u ++ [m2; m1].

(** Where the daemon goroutine stands, by what it has unlocked since a
    callback returned. *)
Definition release_state (u : list Mutex) (pc : WPc) : Prop :=
  (u = [] ∧ pc = W235) ∨ (u = [MExt] ∧ pc = W237) ∨ ∃ u', u = u' ++ [MInt; MExt].

Definition Inv_release (s : State) : Prop :=
  ∀ a r b, trace s = a ++ EReturn r :: b → release_state (unlocks a) (wpc s).

(** All of the above. *)
Definition Inv (s : State) : Prop :=
  Inv_lock s ∧ Inv_valid s ∧ Inv_nonempty s ∧ Inv_deadline s ∧ Inv_stop s ∧
  Inv_push s ∧ Inv_fire s ∧ Inv_order s ∧ Inv_release s.

(** ** Calls and runs used below *)

(** A call of [AddTimeout(f0, t0)] in client goroutine [c], from its first
    statement to its return, with nothing in between. *)
Definition AddTimeout (c f0 : nat) (t0 : Z) : list Action :=
  [ACallAddTimeout c f0 t0; AClient c; AClient c; AClient c; AClient c; AClient c].

(** A call of [Stop()] in client goroutine [c], likewise. *)
Definition Stop (c : nat) : list Action :=
  [ACallStop c; AClient c; AClient c; AClient c; AClient c; AClient c].

(** [n] statements of the daemon goroutine. *)
Definition daemon_n (n : nat) : list Action := replicate n ADaemon.

(** One timeout with deadline 5 is added at time 0; the daemon sleeps on
    it, the clock reaches 6, the timer fires, and the daemon runs the
    callback and goes back to the top of its loop. *)
Definition run_one_timeout : list Action :=
  AddTimeout 0 7 5 ++ daemon_n 5 ++ [ATick 6; ATimer] ++ daemon_n 14.

(** A timeout that is already due is popped; the daemon has unlocked
    [d.mu] at line 211 and not yet locked [d.locker] at line 212 when
    another goroutine calls [Stop], which returns; then the daemon goes
    on. *)
Definition run_Stop_at_212 : list Action :=
  AddTimeout 0 7 0 ++ daemon_n 6 ++ Stop 1 ++ daemon_n 1.

(** A timeout with deadline 10 is added and fires at time 11; then one
    with deadline 5 is added, and fires. *)
Definition run_late_AddTimeout : list Action :=
  AddTimeout 0 2 10 ++ [ATick 11] ++ daemon_n 14 ++ AddTimeout 0 1 5 ++ daemon_n 14.

(** A timeout with deadline 5 is added, and the daemon reaches line 188
    when the clock reads exactly 5. *)
Definition run_on_the_deadline : list Action :=
  AddTimeout 0 7 5 ++ [ATick 5] ++ daemon_n 2.

(** Two timeouts, with deadlines 10 and 5, are in the heap when the clock
    reaches 11: the daemon pops and fires the second, then pops the
    first. *)
Definition run_two_timeouts : list Action :=
  AddTimeout 0 2 10 ++ AddTimeout 0 1 5 ++ [ATick 11] ++ daemon_n 14 ++ daemon_n 4.

(** A timeout that is already due is fired, and another goroutine calls
    [Stop] while the callback runs. *)
Definition run_Stop_during_callback : list Action :=
  AddTimeout 0 7 0 ++ daemon_n 11 ++ [ACallStop 1].

(** A call of [AddTimeout] has returned; a second goroutine is inside
    [Stop] with [d.mu] locked, and a third has entered [AddTimeout]. *)
Definition run_three_clients : list Action :=
  AddTimeout 0 7 5 ++ [ACallStop 1; AClient 1; ACallAddTimeout 2 8 9].

(** A timeout that is already due is popped, and the daemon goroutine has
    unlocked [d.mu] at line 211. *)
Definition run_to_212 : list Action := AddTimeout 0 7 0 ++ daemon_n 6.

(** The statements of the daemon goroutine among a run's actions. *)
Definition is_daemon_action (a : Action) : bool :=
  match a with ADaemon | ATimer | AWake => true | _ => false end.

Definition daemon_steps (acts : list Action) : nat :=
  length (filter (λ a, is_daemon_action a = true) acts).

(** How many statements the daemon goroutine still executes once
    [d.stopped] is set. *)
Definition w_left (pc : WPc) : nat :=
  match pc with
  | W194 _ _ | W212 _ => 5
  | W174w | W195 _ | W213 _ => 4
  | W166 | W174l | W198 | W214 _ => 3
  | W167 | W175 | W199 | W215 => 2
  | W168 | W176 | W200 | W216 => 1
  | _ => 0
  end.

(** One timeout is added, a client takes [d.locker] and cancels it, and
    the daemon runs past the deadline. *)
Definition run_Cancel_under_lock : list Action :=
  AddTimeout 0 7 5 ++ [ALock 0].

Definition run_after_Cancel : list Action :=
  [AUnlock 0; ATick 6] ++ daemon_n 8.

(** The daemon parks in [d.cond.Wait()] on the empty heap. *)
Definition run_to_Wait : list Action := daemon_n 3.

(** The daemon sleeps on a timeout with deadline 50, and [Stop] is called
    and returns. *)
Definition run_Stop_asleep : list Action :=
  AddTimeout 0 7 50 ++ daemon_n 5 ++ [AWake] ++ daemon_n 5 ++ Stop 1.

(** The daemon sleeps on a timeout with deadline 50, and a timeout with
    deadline 20 is added. *)
Definition run_AddTimeout_asleep : list Action :=
  AddTimeout 0 7 50 ++ daemon_n 5 ++ [AWake] ++ daemon_n 5 ++ AddTimeout 1 8 20.

(** Sequences of [heap.Push] and [heap.Pop] on a slice. *)
Inductive HeapOp := HPush (x : nat) | HPop.

Fixpoint heap_run (st : list Timeout) (ops : list HeapOp) (h : list nat)
  : option (list nat) :=
  match ops with
  | [] => Some h
  | HPush x :: ops =>
      match heap_Push st h x with
      | Some h' => heap_run st ops h'
      | None => None
      end
  | HPop :: ops =>
      match heap_Pop st h with
      | Some (_, h') => heap_run st ops h'
      | None => None
      end
  end.

(** ** Statements that the code does not satisfy as they stand *)

(** The ordering of callbacks by deadline, for any two records that both
    fire: the callback of the one with the earlier deadline has returned
    when the other's is entered. *)
Definition fires_in_deadline_order (s : State) : Prop :=
  ∀ r1 r2 a clk b,
    t (deref (store s) r1) < t (deref (store s) r2) →
    cancel (deref (store s) r1) = 0 → cancel (deref (store s) r2) = 0 →
    r1 ∈ fired (trace s) →
    trace s = a ++ EFire r2 clk :: b →
    EReturn r1 ∈ b.

(** The sleep loop is left exactly when [delta = to.t - now] is at most
    zero. *)
Definition exits_iff_delta_nonpositive (s : State) : Prop :=
  ∀ r s', wpc s = W188 → peek (timeouts s) = Some r → step s ADaemon = Some s' →
          (wpc s' = W205 ↔ Sub (t (deref (store s) r)) (clock s) ≤ 0).

(** ** Further invariants of a run *)

(** The statements at which the daemon goroutine holds [d.mu] and has
    found [d.stopped] false since it locked. *)
Definition w_checked (pc : WPc) : bool :=
  match pc with
  | W174 | W188 | W193 _ _ | W205 | W206 _ | W211 _ | W230 _ | W233 _ | W233r _
  | W235 | W237 => true
  | _ => false
  end.

Definition Inv_checked (s : State) : Prop :=
  w_checked (wpc s) = true → stopped s = false.

(** The daemon is on the notify list of [d.cond] only while it is parked
    in [Wait], the heap is empty and the daemon is not stopped. *)
Definition Inv_cond (s : State) : Prop :=
  (cond s = true → wpc s = W174w ∧ timeouts s = [] ∧ stopped s = false) ∧
  (wpc s = W174 → timeouts s = []).

(** The statements of [Stop] after its send on [d.wake]. *)
Definition c_sent (pc : CPc) : bool :=
  match pc with S140 | S141 => true | _ => false end.

(** The daemon goroutine is about to sleep, or sleeps, in the select at
    line 194. *)
Definition w_sleeping (pc : WPc) : bool :=
  match pc with W194 _ _ | W195 _ => true | _ => false end.

(** The records pushed since the daemon goroutine last unlocked a mutex,
    newest first. *)
Fixpoint pushed_since_unlock (tr : list Event) : list nat :=
  match tr with
  | [] => []
  | EUnlock _ :: _ => []
  | EPush r :: tr => r :: pushed_since_unlock tr
  | _ :: tr => pushed_since_unlock tr
  end.

(** A call of [AddTimeout] stands between its push and its send on
    [d.wake]. *)
Definition c_before_send (pc : CPc) : bool :=
  match pc with A156 _ => true | _ => false end.

(** Once a call of [Stop] has sent on [d.wake], and once a record has been
    pushed behind the back of the sleeping daemon and its [AddTimeout] has
    sent on [d.wake], the channel holds a token for as long as the daemon
    sleeps. *)
Definition Inv_wake (s : State) : Prop :=
  (∀ c, c_sent (cpc s c) = true → w_sleeping (wpc s) = true → wake s = true) ∧
  (Stop_returned (trace s) = true → w_sleeping (wpc s) = true → wake s = true) ∧
  (w_sleeping (wpc s) = true → pushed_since_unlock (trace s) ≠ [] →
   wake s = true ∨ ∃ c, c_before_send (cpc s c) = true).

Definition Inv2 (s : State) : Prop := Inv_checked s ∧ Inv_cond s ∧ Inv_wake s.

(** A record is cancelled, its callback has not been entered, and the
    daemon goroutine is not past its last look at the cancel flag. *)
Definition cancelled_unfired (r : nat) (s : State) : Prop :=
  cancel (deref (store s) r) = 1 ∧ (r < length (store s))%nat ∧
  wpc s ≠ W233 r ∧ r ∉ fired (trace s).

(** The statements left to the daemon goroutine once [d.stopped] is set
    and it is let through: it wakes if it sleeps, locks what it was about
    to lock, finds [d.stopped] set, unlocks and returns. *)
Definition wind_down (pc : WPc) : list Action :=
  match pc with
  | W194 _ _ => ADaemon :: AWake :: daemon_n 3
  | W195 _ => AWake :: daemon_n 3
  | pc => daemon_n (w_left pc)
  end.

(** [heap.Pop] called [n] times in a row: the records in the order in
    which they come out, and the slice that is left. *)
Fixpoint drain (st : list Timeout) (n : nat) (h : list nat)
  : option (list nat * list nat) :=
  match n with
  | O => Some ([], h)
  | S n' =>
      match heap_Pop st h with
      | Some (r, h') =>
          match drain st n' h' with
          | Some (rs, h'') => Some (r :: rs, h'')
          | None => None
          end
      | None => None
      end
  end.

(** The records of a slice come in the order of their deadlines. *)
Definition by_deadline (st : list Timeout) (rs : list nat) : Prop :=
  ∀ i j a b, (i ≤ j)%nat → rs !! i = Some a → rs !! j = Some b → key st a ≤ key st b.

(** A bound on the statements the daemon goroutine executes before it
    unlocks [d.mu], by the statement at which it stands with [d.mu]
    locked. *)
Definition mu_left (pc : WPc) : nat :=
  match pc with
  | W214 _ => 6
  | W167 | W175 | W199 | W230 _ => 5
  | W188 | W233 _ => 4
  | W205 | W233r _ => 3
  | W206 _ | W235 => 2
  | _ => 1
  end.

(** ** [NowMonotonic] on Go's [time.Time]

    [NowMonotonic] builds its result with [time.Unix]; such a [Time]
    carries no monotonic reading, and is the pair of the seconds and of
    the nanoseconds within the second.  [Unix], [After], [Before],
    [Equal] and [UnixNano] are those of Go's [time] package on this
    pair, int64 arithmetic with its wrap-around; [/] and [%] truncate
    towards zero. *)
Module GoTime.

Definition wrap64 (z : Z) : Z := (z + 2 ^ 63) mod 2 ^ 64 - 2 ^ 63.

Record Time := mkTime { sec : Z; nsec : Z }.

(** [func Unix(sec int64, nsec int64) Time] *)
Definition Unix (sec nsec : Z) : Time :=
  if (nsec <? 0) || (1000000000 <=? nsec) then
    let n := Z.quot nsec 1000000000 in
    let sec := wrap64 (sec + n) in
    let nsec := wrap64 (nsec - wrap64 (n * 1000000000)) in
    if nsec <? 0 then mkTime (wrap64 (sec - 1)) (wrap64 (nsec + 1000000000))
    else mkTime sec nsec
  else mkTime sec nsec.

(** [func (t Time) After(u Time) bool], [Before] and [Equal] *)
Definition After (t u : Time) : bool :=
  (sec u <? sec t) || ((sec t =? sec u) && (nsec u <? nsec t)).
Definition Before (t u : Time) : bool :=
  (sec t <? sec u) || ((sec t =? sec u) && (nsec t <? nsec u)).
Definition Equal (t u : Time) : bool :=
  (sec t =? sec u) && (nsec t =? nsec u).

(** [func (t Time) UnixNano() int64] *)
Definition UnixNano (t : Time) : Z := wrap64 (wrap64 (sec t * 1000000000) + nsec t).

(** [func NowMonotonic() time.Time], with [now] the value that
    [nanotime()] returns. *)
Definition NowMonotonic (now : Z) : Time :=
  Unix (Z.quot now 1000000000) (Z.rem now 1000000000).

End GoTime.

(** A bound on the statements the daemon goroutine executes before it
    unlocks [d.locker], by the statement at which it stands with
    [d.locker] locked. *)
Definition locker_left (pc : WPc) : nat :=
  match pc with
  | W213 _ => 6
  | W214 _ => 5
  | W230 _ => 4
  | W233 _ => 3
  | W233r _ | W215 => 2
  | _ => 1
  end.

(** The daemon sleeps in the select at line 194 on a timeout with
    deadline 50, and [d.wake] is empty. *)
Definition run_asleep : list Action :=
  AddTimeout 0 7 50 ++ daemon_n 5 ++ [AWake] ++ daemon_n 5.

(** * Proofs *)

Example heap_Push_ex :
  heap_Push [mkTimeout 0 30 0; mkTimeout 1 10 0; mkTimeout 2 20 0] [0%nat; 2%nat] 1%nat
  = Some [1%nat; 2%nat; 0%nat].
Proof. reflexivity. Qed.

Example heap_Pop_ex :
  heap_Pop [mkTimeout 0 30 0; mkTimeout 1 10 0; mkTimeout 2 20 0] [1%nat; 2%nat; 0%nat]
  = Some (1%nat, [2%nat; 0%nat]).
Proof. reflexivity. Qed.

(** ** The heap *)

Section HeapFacts.
Variable st : list Timeout.
Implicit Types h : list nat.

Lemma lookup_exchange h i j a b k :
  h !! i = Some a → h !! j = Some b →
  <[i := b]> (<[j := a]> h) !! k
  = if decide (k = i) then Some b else if decide (k = j) then Some a else h !! k.
Proof.
  intros Hi Hj.
  apply lookup_lt_Some in Hi as Hli. apply lookup_lt_Some in Hj as Hlj.
  destruct (decide (k = i)) as [->|Hki].
  - apply list_lookup_insert_eq. by rewrite length_insert.
  - rewrite list_lookup_insert_ne by done.
    destruct (decide (k = j)) as [->|Hkj].
    + by apply list_lookup_insert_eq.
    + by rewrite list_lookup_insert_ne.
Qed.

Lemma Swap_Some h i j a b :
  h !! i = Some a → h !! j = Some b →
  Swap h i j = Some (<[i := b]> (<[j := a]> h)).
Proof. intros Hi Hj. unfold Swap. by rewrite Hi, Hj. Qed.

Lemma exchange_Permutation h i j a b :
  h !! i = Some a → h !! j = Some b → <[i := b]> (<[j := a]> h) ≡ₚ h.
Proof.
  intros Hi Hj. apply Permutation_inj. split.
  - by rewrite !length_insert.
  - exists (λ k, if decide (k = i) then j else if decide (k = j) then i else k).
    split.
    + intros x y. repeat case_decide; intros; subst; congruence.
    + intros k. rewrite (lookup_exchange h i j a b k Hi Hj).
      repeat case_decide; subst; congruence.
Qed.

Lemma Less_Some h i j a b :
  h !! i = Some a → h !! j = Some b →
  Less st h i j = Some (bool_decide (key st a < key st b)).
Proof.
  intros Hi Hj. unfold Less, Before. rewrite Hi, Hj. f_equal.
  case_bool_decide; lia.
Qed.

Lemma up_S fuel h j :
  up st (S fuel) h j =
  if ((j - 1) / 2 =? j)%nat then Some h
  else match Less st h j ((j - 1) / 2)%nat with
       | None => None
       | Some false => Some h
       | Some true =>
           match Swap h ((j - 1) / 2)%nat j with
           | None => None
           | Some h' => up st fuel h' ((j - 1) / 2)%nat
           end
       end.
Proof. reflexivity. Qed.

Lemma down_S fuel h i n :
  down st (S fuel) h i n =
  if (n <=? 2 * i + 1)%nat then Some h
  else match (if (2 * i + 1 + 1 <? n)%nat
              then Less st h (2 * i + 1 + 1)%nat (2 * i + 1)%nat
              else Some false) with
       | None => None
       | Some c =>
           match Less st h (if c then 2 * i + 1 + 1 else 2 * i + 1)%nat i with
           | None => None
           | Some false => Some h
           | Some true =>
               match Swap h i (if c then 2 * i + 1 + 1 else 2 * i + 1)%nat with
               | None => None
               | Some h' =>
                   down st fuel h' (if c then 2 * i + 1 + 1 else 2 * i + 1)%nat n
               end
           end
       end.
Proof. reflexivity. Qed.

(** From an order fact [H] on [h], the inequalities between the
    entries whose lookups are at hand. *)
Ltac order_facts H :=
  repeat match goal with
  | Hk : ?h !! ?k = Some ?x, Hp : ?h !! ?p = Some ?y |- _ =>
      lazymatch goal with
      | _ : key _ y ≤ key _ x |- _ => fail
      | _ => idtac
      end;
      assert (key st y ≤ key st x)
        by (apply (H k x y);
            solve [ lia | exact Hk | exact Hp
                  | match goal with
                    | |- _ !! ?q = _ => replace q with p by lia; exact Hp
                    end ])
  end.

Lemma up_spec fuel : ∀ h j,
  (j < length h)%nat → (j < fuel)%nat → up_inv st h j →
  ∃ h', up st fuel h j = Some h' ∧ is_heap st h' ∧ h' ≡ₚ h.
Proof.
  induction fuel as [|fuel IH]; intros h j Hj Hfuel [H1 H2]; [lia|].
  rewrite up_S. destruct (Nat.eqb_spec ((j - 1) / 2) j) as [Heq|Hne].
  { exists h. split_and!; [done| |done].
    intros k a b Hk Ha Hb. order_facts H1. lia. }
  assert (Hij : ((j - 1) / 2 < j)%nat) by lia.
  destruct (lookup_lt_is_Some_2 h j Hj) as [a Ha].
  destruct (lookup_lt_is_Some_2 h ((j - 1) / 2)%nat) as [b Hb]; [lia|].
  rewrite (Less_Some h j _ a b Ha Hb).
  case_bool_decide as Hlt.
  2:{ exists h. split_and!; [done| |done].
      intros k x y Hk Hx Hy. destruct (decide (k = j)) as [->|Hkj].
      - simplify_eq. lia.
      - order_facts H1. lia. }
  rewrite (Swap_Some h _ j b a Hb Ha).
  destruct (IH (<[((j - 1) / 2)%nat := a]> (<[j := b]> h)) ((j - 1) / 2)%nat)
    as (h' & Hup & Hheap & Hperm).
  - rewrite !length_insert. lia.
  - lia.
  - split.
    + intros k x y Hk Hki.
      rewrite !(lookup_exchange h _ j b a _ Hb Ha).
      repeat case_decide; intros; simplify_eq; try lia;
        order_facts H1; order_facts H2; lia.
    + intros k x y Hi Hk Hpar.
      rewrite !(lookup_exchange h _ j b a _ Hb Ha).
      repeat case_decide; intros; simplify_eq; try lia;
        order_facts H1; order_facts H2; lia.
  - exists h'. split_and!; [done|done|].
    rewrite Hperm. by apply exchange_Permutation.
Qed.

Ltac min_facts H :=
  repeat match goal with
  | Hk : ?h !! ?k = Some ?x |- _ =>
      let Hn := fresh in
      pose proof (H k x ltac:(lia) ltac:(lia) Hk) as Hn;
      lazymatch type of Hn with
      | ?T => lazymatch goal with
              | _ : T, _ : T |- _ => fail
              | _ => idtac
              end
      end
  end.

Lemma down_spec fuel : ∀ h i n,
  (n ≤ length h)%nat → (n - i < fuel)%nat → down_inv st h i n →
  ∃ h', down st fuel h i n = Some h' ∧ heap_upto st n h' ∧ h' ≡ₚ h ∧
        ∀ m, (n ≤ m)%nat → h' !! m = h !! m.
Proof.
  induction fuel as [|fuel IH]; intros h i n Hn Hfuel [H1 H2]; [lia|].
  rewrite down_S. destruct (Nat.leb_spec n (2 * i + 1)) as [Hle|Hlt].
  { exists h. split_and!; [done| |done|done].
    intros k a b Hk Ha Hb. order_facts H1. lia. }
  destruct (lookup_lt_is_Some_2 h i) as [a Ha]; [lia|].
  destruct (lookup_lt_is_Some_2 h (2 * i + 1)%nat) as [b1 Hb1]; [lia|].
  assert (∃ c b,
    (if (2 * i + 1 + 1 <? n)%nat
     then Less st h (2 * i + 1 + 1)%nat (2 * i + 1)%nat else Some false) = Some c ∧
    h !! (if c then 2 * i + 1 + 1 else 2 * i + 1)%nat = Some b ∧
    ((if c then 2 * i + 1 + 1 else 2 * i + 1) < n)%nat ∧
    ∀ k x, (0 < k < n)%nat → ((k - 1) / 2)%nat = i → h !! k = Some x →
           key st b ≤ key st x) as (c & b & -> & Hb & Hjn & Hmin).
  { destruct (Nat.ltb_spec (2 * i + 1 + 1) n) as [Hlt2|Hge2].
    - destruct (lookup_lt_is_Some_2 h (2 * i + 1 + 1)%nat) as [b2 Hb2]; [lia|].
      rewrite (Less_Some h _ _ b2 b1 Hb2 Hb1).
      case_bool_decide; [exists true, b2|exists false, b1]; (split; [done|]).
      + split_and!; [done|done|]. intros k x Hk Hpar Hx.
        assert (k = (2 * i + 1)%nat ∨ k = (2 * i + 1 + 1)%nat) as [->| ->] by lia;
          simplify_eq; lia.
      + split_and!; [done|done|]. intros k x Hk Hpar Hx.
        assert (k = (2 * i + 1)%nat ∨ k = (2 * i + 1 + 1)%nat) as [->| ->] by lia;
          simplify_eq; lia.
    - exists false, b1. split_and!; [done|done|done|]. intros k x Hk Hpar Hx.
      assert (k = (2 * i + 1)%nat) as -> by lia. simplify_eq. lia. }
  set (j := (if c then 2 * i + 1 + 1 else 2 * i + 1)%nat) in *.
  assert (Hj : ((j - 1) / 2 = i ∧ i < j)%nat) by (destruct c; subst j; lia).
  clearbody j. clear Hb1 b1.
  rewrite (Less_Some h j i b a Hb Ha).
  case_bool_decide as Hba.
  2:{ exists h. split_and!; [done| |done|done].
      intros k x y Hk Hx Hy.
      destruct (decide (((k - 1) / 2)%nat = i)) as [Hki|Hki].
      - min_facts Hmin. rewrite Hki in Hy. simplify_eq. lia.
      - order_facts H1. lia. }
  rewrite (Swap_Some h i j a b Ha Hb).
  destruct (IH (<[i := b]> (<[j := a]> h)) j n) as (h' & Hdown & Hheap & Hperm & Hout).
  - rewrite !length_insert. lia.
  - lia.
  - split.
    + intros k x y Hk Hkj.
      rewrite !(lookup_exchange h i j a b _ Ha Hb).
      repeat case_decide; intros; simplify_eq; try lia;
        order_facts H1; order_facts H2; min_facts Hmin; lia.
    + intros k x y Hj0 Hk Hkj.
      rewrite !(lookup_exchange h i j a b _ Ha Hb).
      repeat case_decide; intros; simplify_eq; try lia;
        order_facts H1; order_facts H2; min_facts Hmin; lia.
  - exists h'. split_and!; [done|done| |].
    + rewrite Hperm. by apply exchange_Permutation.
    + intros m Hm. rewrite (Hout m Hm), (lookup_exchange h i j a b _ Ha Hb).
      repeat case_decide; try lia. done.
Qed.

Lemma heap_root_min h r :
  is_heap st h → h !! 0%nat = Some r → ∀ k x, h !! k = Some x → key st r ≤ key st x.
Proof.
  intros Hh Hr k. induction (lt_wf k) as [k _ IH]. intros x Hx.
  destruct (decide (k = 0%nat)) as [->|Hk]; [simplify_eq; lia|].
  apply lookup_lt_Some in Hx as Hlen.
  destruct (lookup_lt_is_Some_2 h ((k - 1) / 2)%nat) as [y Hy]; [lia|].
  assert (key st r ≤ key st y) by (apply (IH ((k - 1) / 2)%nat); [lia|done]).
  assert (key st y ≤ key st x) by (apply (Hh k x y); [lia|done|done]).
  lia.
Qed.

Lemma heap_Push_spec h x :
  is_heap st h → ∃ h', heap_Push st h x = Some h' ∧ is_heap st h' ∧ h' ≡ₚ x :: h.
Proof.
  intros Hh. unfold heap_Push, Push, Len.
  destruct (up_spec (length (h ++ [x])) (h ++ [x]) (length (h ++ [x]) - 1))
    as (h' & Hup & Hheap & Hperm).
  - rewrite length_app. simpl. lia.
  - rewrite length_app. simpl. lia.
  - rewrite length_app. simpl.
    replace (length h + 1 - 1)%nat with (length h) by lia. split.
    + intros k a b Hk Hkj Ha Hb.
      assert (k < length h)%nat.
      { apply lookup_lt_Some in Ha. rewrite length_app in Ha. simpl in Ha. lia. }
      rewrite lookup_app_l in Ha, Hb by lia.
      apply (Hh k a b); [lia|done|done].
    + intros k a b Hj Hk Hpar Ha Hb.
      apply lookup_lt_Some in Ha. rewrite length_app in Ha. simpl in Ha. lia.
  - exists h'. split_and!; [done|done|].
    rewrite Hperm. by rewrite Permutation_app_comm.
Qed.

Lemma heap_Pop_nil : heap_Pop st [] = None.
Proof. reflexivity. Qed.

Lemma heap_Pop_spec h :
  is_heap st h → h ≠ [] →
  ∃ r h', heap_Pop st h = Some (r, h') ∧ h !! 0%nat = Some r ∧
          h ≡ₚ r :: h' ∧ is_heap st h'.
Proof.
  intros Hh Hne. unfold heap_Pop, Len.
  assert (Hlen : (0 < length h)%nat) by (destruct h; [done|simpl; lia]).
  set (n := (length h - 1)%nat).
  destruct (lookup_lt_is_Some_2 h 0%nat) as [r Hr]; [lia|].
  destruct (lookup_lt_is_Some_2 h n) as [z Hz]; [lia|].
  rewrite (Swap_Some h 0%nat n r z Hr Hz).
  destruct (down_spec (S n) (<[0%nat := z]> (<[n := r]> h)) 0%nat n)
    as (h2 & Hdown & Hheap & Hperm & Hout).
  - rewrite !length_insert. lia.
  - lia.
  - split.
    + intros k a b Hk Hpar.
      rewrite !(lookup_exchange h 0%nat n r z _ Hr Hz).
      repeat case_decide; intros; simplify_eq; try lia.
      apply (Hh k a b); [lia|done|done].
    + intros; lia.
  - rewrite Hdown. unfold Pop.
    assert (Hlen2 : length h2 = S n).
    { rewrite (Permutation_length Hperm), !length_insert. lia. }
    rewrite Hlen2.
    assert (Hlast : h2 !! n = Some r).
    { rewrite (Hout n) by lia. rewrite (lookup_exchange h 0%nat n r z _ Hr Hz).
      repeat case_decide; try done. congruence. }
    rewrite Hlast. exists r, (take n h2). split_and!; [done|done| |].
    + rewrite <- (exchange_Permutation h 0%nat n r z Hr Hz), <- Hperm.
      rewrite <- (take_drop n h2) at 1.
      rewrite (drop_S h2 r n Hlast), drop_ge by lia.
      by rewrite Permutation_app_comm.
    + intros k a b Hk. rewrite length_take in Hk.
      rewrite !lookup_take_lt by lia. apply Hheap. lia.
Qed.

End HeapFacts.

(** ** Runs *)

Lemma reachable_trans s0 s1 s2 : reachable s0 s1 → reachable s1 s2 → reachable s0 s2.
Proof. intros H1 H2. induction H2; [done|]. by eapply reach_step. Qed.

Lemma run_reachable acts : ∀ s s', run acts s = Some s' → reachable s s'.
Proof.
  induction acts as [|a acts IH]; intros s s' Hrun; simpl in Hrun.
  - simplify_eq. constructor.
  - destruct (step s a) as [s1|] eqn:Hs; [|done].
    eapply reachable_trans; [|by apply IH].
    eapply reach_step; [constructor|done].
Qed.

Lemma upd_eq c x g : upd c x g c = x.
Proof. unfold upd. by rewrite Nat.eqb_refl. Qed.

Lemma upd_ne c c' x g : c' ≠ c → upd c x g c' = g c'.
Proof. unfold upd. intros. by destruct (Nat.eqb_spec c' c). Qed.

(** All the ways [step s a = Some s'] can hold. *)
Ltac step_cases H :=
  match type of H with
  | step _ ?a = Some _ =>
      destruct a; simpl in H;
      unfold tick, daemon, daemon_timer, daemon_wake, call_AddTimeout, call_Stop,
        client, client_Lock, client_Unlock, do_Cancel, Lock_mu, Lock_locker in H;
      repeat (case_match; simpl in H; try discriminate);
      simplify_eq; simpl in *
  end.

Ltac upd_cases :=
  repeat match goal with
  | |- context [upd ?c ?x ?g ?c'] =>
      destruct (decide (c' = c)) as [->|?];
      [rewrite (upd_eq c x g)|rewrite (upd_ne c c' x g) by done]
  | H : context [upd ?c ?x ?g ?c'] |- _ =>
      destruct (decide (c' = c)) as [->|?];
      [rewrite (upd_eq c x g) in H|rewrite (upd_ne c c' x g) in H by done]
  end.

Ltac know_pcs :=
  repeat match goal with
  | H : wpc _ = _ |- _ => progress (rewrite H in * )
  | H : mu _ = _ |- _ => progress (rewrite H in * )
  | H : locker _ = _ |- _ => progress (rewrite H in * )
  end.

Lemma Inv_lock_step s a s' : Inv_lock s → step s a = Some s' → Inv_lock s'.
Proof.
  intros (Hw & Hc & Hl) Hstep. step_cases Hstep; unfold Inv_lock; simpl.
  all: try match goal with
       | H : cpc _ ?c = _ |- _ =>
           pose proof (Hc c) as Hcc; rewrite H in Hcc; simpl in Hcc;
           symmetry in Hcc;
           first [apply bool_decide_eq_true in Hcc|apply bool_decide_eq_false in Hcc]
       end.
  all: know_pcs; simpl in *.
  all: split_and!; try (intros c'; upd_cases); simpl; rewrite ?Hc.
  all: repeat case_bool_decide; simplify_eq; try done.
Qed.

(** ** The store: deadlines never change *)

Lemma deref_app st l r : (r < length st)%nat → deref (st ++ l) r = deref st r.
Proof. intros. unfold deref. by rewrite lookup_app_l. Qed.

Lemma key_app st l r : (r < length st)%nat → key (st ++ l) r = key st r.
Proof. intros. unfold key. by rewrite deref_app. Qed.

Lemma key_Cancel st r x r' : st !! r = Some x → key (<[r := Cancel x]> st) r' = key st r'.
Proof.
  intros Hx. unfold key, deref. destruct (decide (r' = r)) as [->|Hne].
  - rewrite list_lookup_insert_eq by (by eapply lookup_lt_Some). by rewrite Hx.
  - by rewrite list_lookup_insert_ne.
Qed.

Lemma is_heap_ext st st' h :
  (∀ r, r ∈ h → key st' r = key st r) → is_heap st h → is_heap st' h.
Proof.
  intros Hk Hh k a b Hlt Ha Hb.
  rewrite (Hk a), (Hk b) by (eapply list_elem_of_lookup_2; eauto).
  by apply (Hh k).
Qed.

Lemma Inv_valid_step s a s' : Inv_valid s → step s a = Some s' → Inv_valid s'.
Proof.
  intros (Hh & Hc & Hw & Hheap & Hp) Hstep.
  step_cases Hstep; unfold Inv_valid; simpl.
  all: try (split_and!; [done|done|by know_pcs|done|done]).
  all: try (split_and!; [done|done|by intros; simplify_eq|done|done]).
  all: try match goal with
       | H : cpc _ ?c = _ |- _ =>
           pose proof (Hc c) as Hcc; pose proof (Hp c) as Hpc;
           rewrite H in Hcc, Hpc; simpl in Hcc
       end.
  all: try (split_and!; [done| |done|done|];
            intros c'; intros; upd_cases; simplify_eq; eauto; done).
  - (* W188: the top of the heap goes into [to] *)
    split_and!; [done|done| |done|done]. intros r ?; simplify_eq.
    apply Hh. eapply list_elem_of_lookup_2. done.
  - (* W205, heap.Pop *)
    destruct (decide (timeouts s = [])) as [Hnil|Hne].
    { match goal with
      | H : heap_Pop _ _ = Some _ |- _ => by rewrite Hnil, heap_Pop_nil in H
      end. }
    destruct (heap_Pop_spec (store s) (timeouts s) Hheap Hne)
      as (r & h' & Hpop & Hr & Hperm & Hheap').
    simplify_eq. split_and!; [ |done| |done|done].
    + intros r' Hr'. apply Hh. rewrite Hperm. by right.
    + intros ? ?; simplify_eq. apply Hh. rewrite Hperm. by left.
  - (* AddTimeout allocates *)
    rewrite length_app. simpl. split_and!.
    + intros r Hr. apply Hh in Hr. lia.
    + intros c' r. upd_cases; simpl; intros; simplify_eq; [lia|].
      assert (r < length (store s))%nat by eauto. lia.
    + intros r Hr. apply Hw in Hr. lia.
    + eapply is_heap_ext; [|done]. intros r Hr. apply key_app. by apply Hh.
    + intros c'. upd_cases; [done|auto].
  - (* heap.Push, with the Broadcast *)
    destruct (heap_Push_spec (store s) (timeouts s) to Hheap)
      as (h' & Hpush & Hheap' & Hperm).
    simplify_eq. split_and!; [ | |done|done| ].
    + intros r Hr. rewrite Hperm in Hr. apply elem_of_cons in Hr as [->|Hr]; auto.
    + intros c'; intros; upd_cases; simplify_eq; eauto.
    + intros c'; intros; upd_cases; simplify_eq; eauto.
  - (* heap.Push, without *)
    destruct (heap_Push_spec (store s) (timeouts s) to Hheap)
      as (h' & Hpush & Hheap' & Hperm).
    simplify_eq. split_and!; [ | |done|done| ].
    + intros r Hr. rewrite Hperm in Hr. apply elem_of_cons in Hr as [->|Hr]; auto.
    + intros c'; intros; upd_cases; simplify_eq; eauto.
    + intros c'; intros; upd_cases; simplify_eq; eauto.
  - (* heap.Push does not panic *)
    destruct (heap_Push_spec (store s) (timeouts s) to Hheap) as (h' & Hpush & _).
    congruence.
  - (* Cancel *)
    rewrite length_insert. split_and!; [done|done|done| |done].
    eapply is_heap_ext; [|done]. intros. by apply key_Cancel.
Qed.

(** ** The heap is not empty where the daemon reads it *)

Lemma heap_Push_not_nil st h x h' : is_heap st h → heap_Push st h x = Some h' → h' ≠ [].
Proof.
  intros Hh Hpush. destruct (heap_Push_spec st h x Hh) as (h2 & Hp2 & _ & Hperm).
  simplify_eq. intros ->. by apply Permutation_nil_cons in Hperm.
Qed.

Lemma Inv_nonempty_step s a s' :
  Inv_valid s → Inv_nonempty s → step s a = Some s' → Inv_nonempty s'.
Proof.
  intros (_ & _ & _ & Hheap & _) (Hp & Hn & Hk) Hstep.
  unfold w_woken in Hk.
  step_cases Hstep; unfold Inv_nonempty, w_woken; simpl.
  all: know_pcs; simpl in *.
  all: try (split_and!; try done; by auto).
  all: try match goal with
       | H : heap_Push _ _ _ = Some _ |- _ =>
           pose proof (heap_Push_not_nil _ _ _ _ Hheap H)
       end.
  all: try (split_and!; try done; by auto).
  - (* W167: the heap has been seen non-empty *)
    split_and!; try done. intros _ Hnil. by rewrite Hnil in *.
  - (* W175: woken and not stopped *)
    split_and!; try done. intros _. by destruct Hk.
  - (* W188: d.peek() *)
    destruct (timeouts s); [by destruct Hn|done].
  - (* W205: heap.Pop *)
    destruct (heap_Pop_spec (store s) (timeouts s) Hheap) as (r & h' & Hpop & _);
      [by apply Hn|congruence].
Qed.

(** ** No callback before its deadline *)

Lemma Inv_lock_excl s c :
  Inv_lock s → c_holds_mu (cpc s c) = true → w_holds_mu (wpc s) = false.
Proof.
  intros (Hw & Hc & _) Hcm. rewrite Hc in Hcm. rewrite Hw.
  apply bool_decide_eq_true in Hcm. rewrite Hcm. done.
Qed.

Lemma w_popped_w_to pc r : w_popped pc = Some r → w_to pc = Some r.
Proof. destruct pc; simpl; congruence. Qed.

Lemma Inv_deadline_step s a s' :
  Inv_lock s → Inv_valid s → Inv_deadline s → step s a = Some s' → Inv_deadline s'.
Proof.
  intros Hlock (Hh & Hc & Hw & Hheap & _) (H5 & Hpop & Hf) Hstep.
  step_cases Hstep; unfold Inv_deadline; simpl.
  all: try match goal with
       | H : cpc _ ?c = _ |- _ =>
           pose proof (Inv_lock_excl s c Hlock) as Hex; rewrite H in Hex; simpl in Hex
       end.
  all: know_pcs; simpl in *.
  all: try (split_and!; try done; intros; simplify_eq; try done;
            try match goal with
                | H : _ ∈ _ :: _ |- _ => apply elem_of_cons in H as [?|?]; simplify_eq
                end; by auto).
  - (* the clock advances *)
    assert (0 ≤ dt) by lia. split_and!.
    + intros Hpc. destruct (H5 Hpc) as (r & ? & ?). exists r. split; [done|lia].
    + intros r Hr. apply Hpop in Hr. lia.
    + intros r clk Hin. destruct (Hf r clk Hin) as (? & ? & ?). split_and!; [done|done|lia].
  - (* W188: now.After(to.t) *)
    split_and!; try done. intros _. eexists; split; [done|].
    unfold After in *. unfold key. lia.
  - (* W205: heap.Pop returns the top *)
    destruct (heap_Pop_spec (store s) (timeouts s) Hheap) as (r & h' & Hp' & Hr & _ & _).
    { intros Hnil. destruct H5 as (? & Hpk & _); [done|]. by rewrite Hnil in Hpk. }
    simplify_eq. split_and!; try done.
    + intros ? ?; simplify_eq.
      destruct H5 as (r' & Hpk & Hlt); [done|]. unfold peek in Hpk. by simplify_eq.
    + intros r' clk [?|Hin]%elem_of_cons; [done|by auto].
  - (* W233: the callback is entered *)
    split_and!; try done. intros r clk [?|Hin]%elem_of_cons; [|by auto].
    simplify_eq. split_and!; [by apply Hw| |lia]. by apply Hpop.
  - (* AddTimeout allocates *)
    rewrite length_app. simpl. split_and!.
    + intros Hpc. destruct (H5 Hpc) as (r & Hpk & ?). exists r. split; [done|].
      rewrite key_app; [done|]. apply Hh. by eapply list_elem_of_lookup_2.
    + intros r Hr. rewrite key_app; [by apply Hpop|]. by apply Hw, w_popped_w_to.
    + intros r clk Hin. destruct (Hf r clk Hin) as (? & ? & ?).
      rewrite key_app by done. split_and!; [lia|done|done].
  - (* heap.Push, under d.mu *)
    split_and!; [|done|].
    + intros Hpc. rewrite Hpc in Hex. by specialize (Hex eq_refl).
    + intros r' clk [?|Hin]%elem_of_cons; [done|by auto].
  - split_and!; [|done|].
    + intros Hpc. rewrite Hpc in Hex. by specialize (Hex eq_refl).
    + intros r' clk [?|Hin]%elem_of_cons; [done|by auto].
  - (* Cancel *)
    rewrite length_insert. split_and!.
    + intros Hpc. destruct (H5 Hpc) as (r' & ? & ?). exists r'. by rewrite key_Cancel.
    + intros r' Hr. rewrite key_Cancel by done. by apply Hpop.
    + intros r' clk Hin. rewrite key_Cancel by done. by apply Hf.
Qed.

(** ** No callback after Stop has returned *)

Lemma cons_split {A} (e x : A) tr a b :
  e :: tr = a ++ x :: b →
  (a = [] ∧ e = x ∧ b = tr) ∨ (∃ a', a = e :: a' ∧ tr = a' ++ x :: b).
Proof.
  destruct a as [|e' a']; simpl; intros Heq; simplify_eq; [by left|right; eauto].
Qed.

Ltac split_trace :=
  match goal with
  | H : _ :: _ = _ ++ _ :: _ |- _ =>
      apply cons_split in H as [(-> & ? & ->)|(? & -> & ?)]; simplify_eq
  end.

Lemma Inv_stop_step s a s' :
  Inv_lock s → Inv_stop s → step s a = Some s' → Inv_stop s'.
Proof.
  intros Hlock (Hr & Hc & Hw & Hf) Hstep.
  step_cases Hstep; unfold Inv_stop; simpl.
  all: try match goal with
       | H : cpc _ ?c = _ |- _ =>
           pose proof (Inv_lock_excl s c Hlock) as Hex; rewrite H in Hex; simpl in Hex;
           pose proof (Hc c) as Hcc; rewrite H in Hcc; simpl in Hcc
       end.
  all: know_pcs; simpl in *.
  all: try (split_and!; try done; intros; upd_cases; simplify_eq; try done;
            try split_trace; by eauto).
  - (* W233: the callback is entered *)
    split_and!; try done. intros; split_trace; [|by eauto].
    destruct (Stop_returned (trace s)); [|done].
    specialize (Hr eq_refl). specialize (Hw eq_refl). congruence.
  - (* Stop: d.stopped = true, with the Broadcast *)
    split_and!; try done. intros Hfire. destruct (wpc s); simpl in *; by auto.
  - (* Stop: d.stopped = true, without *)
    split_and!; try done. intros Hfire. destruct (wpc s); simpl in *; by auto.
Qed.

(** ** Every record is pushed once and popped at most once *)

Lemma pending_c_to pc r : pending pc = Some r → c_to pc = Some r.
Proof. destruct pc; simpl; congruence. Qed.

Lemma Inv_push_step s a s' :
  Inv_valid s → Inv_push s → step s a = Some s' → Inv_push s'.
Proof.
  intros (Hh & Hc & Hw & Hheap & _) (P1 & P2 & P3 & P4 & P5 & P6 & P7) Hstep.
  step_cases Hstep; unfold Inv_push; simpl.
  all: try match goal with
       | H : cpc _ ?c = _ |- _ =>
           pose proof (P4 c) as P4c; pose proof (P6 c) as P6c; pose proof (Hc c) as Hcc;
           pose proof (λ c' r, P5 c c' r) as P5c; pose proof (λ c' r, P5 c' c r) as P5c';
           rewrite H in P4c, P6c, Hcc, P5c, P5c'; simpl in P4c, P6c, Hcc, P5c, P5c'
       end.
  all: try (split_and!; try done; intros; upd_cases; simplify_eq; try done;
            try match goal with
                | H : _ ∈ _ :: _ |- _ => apply elem_of_cons in H as [?|?]; simplify_eq
                end; by eauto).
  - (* W205: heap.Pop *)
    destruct (decide (timeouts s = [])) as [Hnil|Hne].
    { match goal with
      | H : heap_Pop _ _ = Some _ |- _ => by rewrite Hnil, heap_Pop_nil in H
      end. }
    destruct (heap_Pop_spec (store s) (timeouts s) Hheap Hne)
      as (r & h' & Hpop & Hr & Hperm & Hheap').
    simplify_eq. split_and!; try done.
    + rewrite P1, Hperm. simpl. by rewrite Permutation_middle.
    + intros c' r' [?|?]%elem_of_cons; [done|by eauto].
  - (* AddTimeout allocates *)
    rewrite length_app. simpl. split_and!; try done.
    + intros r Hr. apply P3 in Hr. lia.
    + intros c' r. upd_cases; simpl; intros; simplify_eq; [|by eauto].
      intros Hin%P3. lia.
    + intros c1 c2 r. upd_cases; simpl; intros; simplify_eq; try done;
        try (exfalso; assert (length (store s) < length (store s))%nat;
             [by eapply Hc, pending_c_to|lia]).
      by eauto.
    + intros c' r. upd_cases; simpl; intros; simplify_eq. by eauto.
  - (* heap.Push, with the Broadcast *)
    destruct (heap_Push_spec (store s) (timeouts s) to Hheap)
      as (h' & Hpush & Hheap' & Hperm).
    simplify_eq. split_and!.
    + by rewrite Hperm, P1.
    + apply NoDup_cons. split; [by apply (P4c to)|done].
    + intros r [->|?]%elem_of_cons; [by apply (Hcc to)|by auto].
    + intros c' r. upd_cases; simpl; intros; simplify_eq.
      intros [->|?]%elem_of_cons; [|by eapply P4].
      assert (c = c') by (by apply (P5c c' to)). done.
    + intros c1 c2 r. upd_cases; simpl; intros; simplify_eq. by eauto.
    + intros c' r. upd_cases; simpl; intros; simplify_eq; [by left|right; by eauto].
    + intros c' r [?|?]%elem_of_cons; [done|right; by eauto].
  - (* heap.Push, without *)
    destruct (heap_Push_spec (store s) (timeouts s) to Hheap)
      as (h' & Hpush & Hheap' & Hperm).
    simplify_eq. split_and!.
    + by rewrite Hperm, P1.
    + apply NoDup_cons. split; [by apply (P4c to)|done].
    + intros r [->|?]%elem_of_cons; [by apply (Hcc to)|by auto].
    + intros c' r. upd_cases; simpl; intros; simplify_eq.
      intros [->|?]%elem_of_cons; [|by eapply P4].
      assert (c = c') by (by apply (P5c c' to)). done.
    + intros c1 c2 r. upd_cases; simpl; intros; simplify_eq. by eauto.
    + intros c' r. upd_cases; simpl; intros; simplify_eq; [by left|right; by eauto].
    + intros c' r [?|?]%elem_of_cons; [done|right; by eauto].
  - (* Cancel *)
    rewrite length_insert. done.
Qed.

(** ** Every callback is entered at most once *)

Lemma last_pop_popped tr r : last_pop tr = Some r → r ∈ popped tr.
Proof. unfold last_pop. destruct (popped tr); simpl; intros; simplify_eq. by left. Qed.

Lemma Inv_push_fresh s r :
  Inv_push s → r ∈ timeouts s → r ∉ popped (trace s).
Proof.
  intros (P1 & P2 & _) Hin. rewrite P1 in P2.
  apply NoDup_app in P2 as (_ & Hdisj & _). by apply Hdisj.
Qed.

Lemma Inv_fire_step s a s' :
  Inv_valid s → Inv_push s → Inv_fire s → step s a = Some s' → Inv_fire s'.
Proof.
  intros (Hh & Hc & Hw & Hheap & _) Hpush (F1 & F2 & F3 & F4 & F5 & F6 & F7) Hstep.
  step_cases Hstep; unfold Inv_fire; simpl.
  all: know_pcs; simpl in *.
  all: try (split_and!; try done; intros; simplify_eq; try done;
            try split_trace; try (by eauto);
            match goal with
            | H : _ ∈ fired _ |- _ => by destruct (F6 _ H); [left|]
            end).

  - (* W205: heap.Pop *)
    destruct (decide (timeouts s = [])) as [Hnil|Hne].
    { match goal with
      | H : heap_Pop _ _ = Some _ |- _ => by rewrite Hnil, heap_Pop_nil in H
      end. }
    destruct (heap_Pop_spec (store s) (timeouts s) Hheap Hne)
      as (r & h' & Hpop & Hr & Hperm & Hheap').
    simplify_eq.
    match goal with
    | Hr : timeouts s !! 0%nat = Some ?r |- _ =>
        assert (r ∉ popped (trace s))
          by (apply Inv_push_fresh; [done|]; by eapply list_elem_of_lookup_2)
    end.
    split_and!; try done.
    + intros ? ? ?; simplify_eq. by auto.
    + intros r' ?. right. by auto.
    + intros; split_trace. by eauto.
    + intros r' Hin. by destruct (F6 _ Hin); [left|].
    + intros; split_trace; [|by eauto].
      match goal with H : _ ∈ fired _ |- _ => by destruct (F6 _ H) end.
  - (* W233: the callback is entered *)
    split_and!; try done.
    + intros r [->|?]%elem_of_cons; [by apply last_pop_popped, F2|by auto].
    + apply NoDup_cons. split; [by apply F1|done].
    + intros; split_trace; [by apply F2|by eauto].
    + intros r [->|Hin]%elem_of_cons; [by right|].
      by destruct (F6 _ Hin); [left|].
    + intros; split_trace. by eauto.
  - (* W233r: the callback returns *)
    split_and!; try done.
    + intros; split_trace. by eauto.
    + intros r Hin. left. destruct (F6 _ Hin); [by right|]. simplify_eq. by left.
    + intros; split_trace. by eauto.
Qed.

(** ** Records leave the heap in the order of their deadlines *)

Lemma pushed_app a b : pushed (a ++ b) = pushed a ++ pushed b.
Proof. induction a as [|[] a IH]; simpl; by rewrite ?IH. Qed.

Lemma popped_app a b : popped (a ++ b) = popped a ++ popped b.
Proof. induction a as [|[] a IH]; simpl; by rewrite ?IH. Qed.

Lemma fired_app a b : fired (a ++ b) = fired a ++ fired b.
Proof. induction a as [|[] a IH]; simpl; by rewrite ?IH. Qed.

Lemma returned_app a b : returned (a ++ b) = returned a ++ returned b.
Proof. induction a as [|[] a IH]; simpl; by rewrite ?IH. Qed.

Lemma elem_of_pushed tr r : r ∈ pushed tr ↔ EPush r ∈ tr.
Proof.
  induction tr as [|e tr IH]; simpl; [by rewrite !elem_of_nil|].
  destruct e; rewrite ?elem_of_cons, IH; naive_solver.
Qed.

Lemma elem_of_popped tr r : r ∈ popped tr ↔ EPop r ∈ tr.
Proof.
  induction tr as [|e tr IH]; simpl; [by rewrite !elem_of_nil|].
  destruct e; rewrite ?elem_of_cons, IH; naive_solver.
Qed.

Lemma elem_of_fired tr r : r ∈ fired tr ↔ ∃ clk, EFire r clk ∈ tr.
Proof.
  induction tr as [|e tr IH]; simpl.
  - rewrite elem_of_nil. split; [done|]. intros [? ?%elem_of_nil]. done.
  - destruct e; rewrite ?elem_of_cons, IH; setoid_rewrite elem_of_cons; naive_solver.
Qed.

Lemma elem_of_returned tr r : r ∈ returned tr ↔ EReturn r ∈ tr.
Proof.
  induction tr as [|e tr IH]; simpl; [by rewrite !elem_of_nil|].
  destruct e; rewrite ?elem_of_cons, IH; naive_solver.
Qed.

Lemma Inv_push_popped_valid s r :
  Inv_push s → r ∈ popped (trace s) → (r < length (store s))%nat.
Proof.
  intros (P1 & _ & P3 & _) Hin. apply P3. rewrite P1. apply elem_of_app. by right.
Qed.

Lemma Inv_order_step s a s' :
  Inv_valid s → Inv_push s → Inv_order s → step s a = Some s' → Inv_order s'.
Proof.
  intros (Hh & Hc & Hw & Hheap & _) Hpush Ho Hstep.
  assert (Hkeys : ∀ st', (∀ r, (r < length (store s))%nat → key st' r = key (store s) r) →
            ∀ a r2 b, trace s = a ++ EPop r2 :: b →
            ∀ r1, r1 ∈ pushed b → key st' r1 < key st' r2 → r1 ∈ popped b).
  { intros st' Hst' a0 r2 b Htr r1 Hr1. rewrite !Hst'.
    - by eapply Ho.
    - apply (Inv_push_popped_valid s r2 Hpush). rewrite Htr, popped_app. simpl.
      apply elem_of_app. right. by left.
    - destruct Hpush as (_ & _ & P3 & _). apply P3. rewrite Htr, pushed_app.
      apply elem_of_app. by right. }
  step_cases Hstep; unfold Inv_order; simpl.
  all: try (intros; try split_trace; by eauto).
  - (* W205: heap.Pop *)
    destruct (decide (timeouts s = [])) as [Hnil|Hne].
    { match goal with
      | H : heap_Pop _ _ = Some _ |- _ => by rewrite Hnil, heap_Pop_nil in H
      end. }
    destruct (heap_Pop_spec (store s) (timeouts s) Hheap Hne)
      as (r & h' & Hpop & Hr & Hperm & Hheap').
    simplify_eq. intros a0 r2 b Htr r1 Hr1 Hlt. split_trace; [|by eauto].
    destruct (decide (r1 ∈ popped (trace s))) as [|Hnp]; [done|exfalso].
    destruct Hpush as (P1 & _). rewrite P1 in Hr1.
    apply elem_of_app in Hr1 as [Hr1|?]; [|done].
    apply list_elem_of_lookup_1 in Hr1 as [k Hk].
    pose proof (heap_root_min (store s) (timeouts s) _ Hheap Hr k r1 Hk). lia.
  - (* AddTimeout allocates *)
    apply Hkeys. intros. by apply key_app.
  - (* Cancel *)
    apply Hkeys. intros. by apply key_Cancel.
Qed.

(** ** The order of the unlocks after a callback *)

Lemma Inv_release_step s a s' : Inv_release s → step s a = Some s' → Inv_release s'.
Proof.
  intros Hrel Hstep.
  step_cases Hstep; unfold Inv_release; simpl.
  all: intros a0 r0 b Htr; try split_trace; try (by eauto); try (by left).
  all: match goal with
       | H : trace _ = _ ++ EReturn _ :: _ |- _ =>
           destruct (Hrel _ _ _ H) as [[E Hpc]|[[E Hpc]|[u E]]]
       end; simpl; rewrite E; try congruence.
  all: try (by left).
  all: try (by right; left).
  all: try (by right; right; eauto).
  all: try (by right; right; eexists (_ :: _)).
  all: by right; right; exists [].
Qed.

Lemma Inv_release_order s : Inv_release s → released_in_order MExt MInt (trace s).
Proof.
  intros Hrel a r b Htr.
  destruct (Hrel a r b Htr) as [[? _]|[[? _]|?]]; auto.
Qed.

(** ** The invariants hold in every run *)

Lemma app_cons_not_nil' {A} (a : list A) x b : [] = a ++ x :: b → False.
Proof. by destruct a. Qed.

Lemma Inv_init now : Inv (NewDaemon now).
Proof.
  unfold Inv, Inv_lock, Inv_valid, Inv_nonempty, Inv_deadline, Inv_stop, Inv_push,
    Inv_fire, Inv_order, Inv_release, is_heap, heap_upto, NewDaemon.
  simpl. split_and!; try done; intros;
    try match goal with
        | H : _ ∈ [] |- _ => by apply elem_of_nil in H
        | H : [] = _ ++ _ :: _ |- _ => by apply app_cons_not_nil' in H
        end;
    try constructor; simpl in *; lia.
Qed.

Lemma Inv_step s a s' : Inv s → step s a = Some s' → Inv s'.
Proof.
  intros (Hl & Hv & Hn & Hd & Hs & Hp & Hf & Ho & Hr) Hstep.
  unfold Inv. split_and!.
  - by eapply Inv_lock_step.
  - by eapply Inv_valid_step.
  - by eapply Inv_nonempty_step.
  - by eapply Inv_deadline_step.
  - by eapply Inv_stop_step.
  - by eapply Inv_push_step.
  - by eapply Inv_fire_step.
  - by eapply Inv_order_step.
  - by eapply Inv_release_step.
Qed.

Lemma Inv_reachable now s : reachable (NewDaemon now) s → Inv s.
Proof. induction 1; [apply Inv_init|by eapply Inv_step]. Qed.

Lemma Inv_run now acts s : run acts (NewDaemon now) = Some s → Inv s.
Proof. intros. by eapply Inv_reachable, run_reachable. Qed.

(** * The claims *)

(** C1. For every timeout record whose callback the daemon goroutine
    invokes, the monotonic clock at the entry of the callback is at or
    after the record's deadline; and the daemon pops a record and fires it
    only after it has seen the clock pass the deadline: when it is about
    to pop, the deadline of the record at the top of the heap is behind
    the clock, and so is the deadline of the record it holds from the pop
    to the return of the callback. *)
Theorem C1_callback_not_before_deadline now acts s :
  run acts (NewDaemon now) = Some s →
  (∀ r clk, EFire r clk ∈ trace s → t (deref (store s) r) ≤ clk) ∧
  (wpc s = W205 →
   ∃ r, peek (timeouts s) = Some r ∧ After (clock s) (t (deref (store s) r)) = true) ∧
  (∀ r, w_popped (wpc s) = Some r → After (clock s) (t (deref (store s) r)) = true).
Proof.
  intros Hrun. destruct (Inv_run _ _ _ Hrun) as (_ & _ & _ & (H5 & Hpop & Hf) & _).
  unfold After, key in *. split_and!.
  - intros r clk Hin. destruct (Hf r clk Hin) as (_ & ? & _). lia.
  - intros Hpc. destruct (H5 Hpc) as (r & ? & ?). exists r. split; [done|lia].
  - intros r Hr. apply Hpop in Hr. lia.
Qed.

Lemma C1_witness :
  ∃ s, run run_one_timeout (NewDaemon 0) = Some s ∧
       EFire 0 6 ∈ trace s ∧ t (deref (store s) 0%nat) ≤ 6.
Proof.
  eexists. split; [vm_compute; reflexivity|]. split.
  - vm_compute. do 3 right. left.
  - match goal with
    | |- context [store ?s] =>
        apply (proj1 (C1_callback_not_before_deadline 0 run_one_timeout s
                        ltac:(vm_compute; reflexivity)))
    end.
    vm_compute. do 3 right. left.
Defined.

(** C2. The callback of a timeout record created by [AddTimeout] is
    invoked at most once in a run of the daemon: no record is fired twice,
    pushed twice or popped twice; a record whose [AddTimeout] has returned
    has been pushed, and only pushed records are popped; and a callback is
    entered only in the iteration that popped its record, that is, the
    latest [heap.Pop] before the entry returned that record. *)
Theorem C2_callback_at_most_once now acts s :
  run acts (NewDaemon now) = Some s →
  NoDup (fired (trace s)) ∧
  NoDup (pushed (trace s)) ∧
  NoDup (popped (trace s)) ∧
  (∀ c r, EAddRet c r ∈ trace s → r ∈ pushed (trace s)) ∧
  (∀ r, r ∈ popped (trace s) → r ∈ pushed (trace s)) ∧
  (∀ a r clk b, trace s = a ++ EFire r clk :: b → last_pop b = Some r).
Proof.
  intros Hrun.
  destruct (Inv_run _ _ _ Hrun)
    as (_ & _ & _ & _ & _ & (P1 & P2 & _ & _ & _ & _ & P7) & (_ & _ & _ & F4 & F5 & _) & _).
  split_and!; try done.
  - rewrite P1 in P2. by apply NoDup_app in P2 as (_ & _ & ?).
  - intros r Hr. rewrite P1. apply elem_of_app. by right.
Qed.

Lemma C2_witness :
  ∃ s, run run_one_timeout (NewDaemon 0) = Some s ∧
       fired (trace s) = [0%nat] ∧ NoDup (fired (trace s)).
Proof.
  eexists. split; [vm_compute; reflexivity|]. split; [vm_compute; reflexivity|].
  match goal with
  | |- context [trace ?s] =>
      apply (proj1 (C2_callback_at_most_once 0 run_one_timeout s
                      ltac:(vm_compute; reflexivity)))
  end.
Defined.

(** C4. After [Stop] has returned no callback is entered: at every entry
    of a callback in a run, no call of [Stop] had returned.  A callback
    that is running is left to complete: [d.stopped] is still false, the
    daemon's next statement is the return of the callback, and a call of
    [Stop] made meanwhile waits at [d.mu.Lock()]. *)
Theorem C4_no_callback_after_Stop now acts s :
  run acts (NewDaemon now) = Some s →
  (∀ a r clk b, trace s = a ++ EFire r clk :: b → Stop_returned b = false) ∧
  (∀ r, wpc s = W233r r →
        stopped s = false ∧
        (∃ s', step s ADaemon = Some s' ∧ trace s' = EReturn r :: trace s) ∧
        (∀ c, cpc s c = S130 → step s (AClient c) = None)).
Proof.
  intros Hrun.
  destruct (Inv_run _ _ _ Hrun) as ((Hw & _) & _ & _ & _ & (_ & _ & Hf & Hs) & _).
  split; [done|]. intros r Hpc. rewrite Hpc in *. simpl in *. split_and!.
  - by apply Hf.
  - eexists. unfold daemon. rewrite Hpc. by split.
  - intros c Hc. unfold client, Lock_mu. rewrite Hc.
    symmetry in Hw. apply bool_decide_eq_true in Hw. by rewrite Hw.
Qed.

Lemma C4_witness :
  ∃ s, run run_Stop_during_callback (NewDaemon 1) = Some s ∧
       wpc s = W233r 0 ∧ cpc s 1%nat = S130 ∧
       stopped s = false ∧ step s (AClient 1) = None.
Proof.
  eexists. split; [vm_compute; reflexivity|].
  split; [vm_compute; reflexivity|]. split; [vm_compute; reflexivity|].
  match goal with
  | |- context [stopped ?s] =>
      destruct (proj2 (C4_no_callback_after_Stop 1 run_Stop_during_callback s
                         ltac:(vm_compute; reflexivity)) 0%nat
                      ltac:(vm_compute; reflexivity))
        as (Hstopped & _ & Hblocked)
  end.
  split; [exact Hstopped|]. apply Hblocked. vm_compute; reflexivity.
Defined.

(** C3. After [Stop] has returned the daemon goroutine does not lock the
    client's mutex again.  The code does: in the run below [Stop] is
    called and returns while the daemon stands between [d.mu.Unlock()] at
    line 211 and [d.locker.Lock()] at line 212, and the daemon's next
    statement locks [d.locker]. *)
Theorem C3_locker_locked_after_Stop :
  ∃ s b, run run_Stop_at_212 (NewDaemon 1) = Some s ∧
         trace s = ELock MExt :: b ∧ Stop_returned b = true ∧
         locker s = Some Worker.
Proof.
  eexists _, _. split; [vm_compute; reflexivity|].
  split; [vm_compute; reflexivity|]. split; vm_compute; reflexivity.
Qed.

(** C5, as the spec states it: of any two uncancelled records with
    deadlines [t1 < t2], the callback of the first completes before the
    callback of the second begins.  It fails when the record with the
    earlier deadline is added after the other has fired: in the run below
    record 0 (deadline 10) fires at time 11, and record 1 (deadline 5) is
    only added afterwards, and fires afterwards. *)
Lemma C5_counterexample :
  ∃ s, run run_late_AddTimeout (NewDaemon 0) = Some s ∧ ¬ fires_in_deadline_order s.
Proof.
  eexists. split; [vm_compute; reflexivity|].
  intros Hord.
  specialize (Hord 1%nat 0%nat
    [EUnlock MInt; EUnlock MExt; EReturn 1; EFire 1 11; ELock MInt; ELock MExt;
     EUnlock MInt; EPop 1; ELock MInt; EAddRet 0 1; EPush 1;
     EUnlock MInt; EUnlock MExt; EReturn 0]
    11
    [ELock MInt; ELock MExt; EUnlock MInt; EPop 0; ELock MInt; EAddRet 0 0; EPush 0]).
  vm_compute in Hord.
  specialize (Hord eq_refl eq_refl eq_refl ltac:(left) eq_refl).
  apply list_elem_of_In in Hord. simpl in Hord. intuition discriminate.
Qed.

(** C5, amended: of two records with deadlines [t1 < t2] of which the
    first was pushed before the second was popped, the first is popped
    before the second; its callback is not entered once the second has
    been popped, and if it was entered it had returned by then; and the
    callback of the second is not entered before its pop.  So the callback
    of the first, if it runs, completes before that of the second
    begins. *)
Theorem C5_callbacks_in_deadline_order now acts s :
  run acts (NewDaemon now) = Some s →
  ∀ r1 r2 a b,
    trace s = a ++ EPop r2 :: b →
    EPush r1 ∈ b →
    t (deref (store s) r1) < t (deref (store s) r2) →
    EPop r1 ∈ b ∧
    (∀ clk, EFire r1 clk ∉ a) ∧
    (∀ clk, EFire r1 clk ∈ b → EReturn r1 ∈ b) ∧
    (∀ clk, EFire r2 clk ∉ b).
Proof.
  intros Hrun r1 r2 a b Htr Hpush Hlt.
  destruct (Inv_run _ _ _ Hrun)
    as (_ & _ & _ & _ & _ & (P1 & P2 & _) & (_ & _ & _ & _ & F5 & _ & F7) & Ho & _).
  assert (Hnd : NoDup (popped (trace s))).
  { rewrite P1 in P2. by apply NoDup_app in P2 as (_ & _ & ?). }
  assert (Hpop1 : r1 ∈ popped b).
  { apply (Ho a r2 b Htr); [by apply elem_of_pushed|done]. }
  rewrite Htr, popped_app in Hnd. simpl in Hnd.
  apply NoDup_app in Hnd as (_ & Hdisj & Hnd2).
  apply NoDup_cons in Hnd2 as (Hr2 & _).
  split_and!.
  - by apply elem_of_popped.
  - intros clk Hin. apply list_elem_of_split in Hin as (a1 & a2 & ->).
    rewrite <- app_assoc in Htr. simpl in Htr.
    apply F5 in Htr. unfold last_pop in Htr. rewrite popped_app in Htr. simpl in Htr.
    destruct (popped a2) as [|x l] eqn:Ha2; simpl in Htr; simplify_eq; [lia|].
    apply (Hdisj r1); [|by right].
    rewrite popped_app. simpl. rewrite Ha2. apply elem_of_app. right. by left.
  - intros clk Hin. apply elem_of_returned. apply (F7 a r2 b Htr).
    apply elem_of_fired. by exists clk.
  - intros clk Hin. apply list_elem_of_split in Hin as (b1 & b2 & ->).
    replace (a ++ EPop r2 :: b1 ++ EFire r2 clk :: b2)
      with ((a ++ EPop r2 :: b1) ++ EFire r2 clk :: b2) in Htr
      by (by rewrite <- app_assoc).
    apply F5, last_pop_popped in Htr.
    apply Hr2. rewrite popped_app. simpl. apply elem_of_app. by right.
Qed.

Lemma C5_witness :
  ∃ s, run run_two_timeouts (NewDaemon 0) = Some s ∧
       trace s = [] ++ EPop 0 ::
         [ELock MInt; EUnlock MInt; EUnlock MExt; EReturn 1; EFire 1 11; ELock MInt;
          ELock MExt; EUnlock MInt; EPop 1; ELock MInt; EAddRet 0 1; EPush 1;
          EAddRet 0 0; EPush 0] ∧
       EPop 1 ∈
         [ELock MInt; EUnlock MInt; EUnlock MExt; EReturn 1; EFire 1 11; ELock MInt;
          ELock MExt; EUnlock MInt; EPop 1; ELock MInt; EAddRet 0 1; EPush 1;
          EAddRet 0 0; EPush 0].
Proof.
  eexists. split; [vm_compute; reflexivity|].
  match goal with
  | |- trace ?s = _ ∧ _ =>
      pose proof (C5_callbacks_in_deadline_order 0 run_two_timeouts s
                    ltac:(vm_compute; reflexivity) 1%nat 0%nat [] _
                    ltac:(vm_compute; reflexivity)) as Hthm
  end.
  split; [vm_compute; reflexivity|].
  apply Hthm; [do 11 right; left|vm_compute; reflexivity].
Defined.

(** C6, as the spec states it: the sleep loop is left exactly when
    [delta = deadline - now()] is at most zero.  It is not left at
    [delta = 0]: in the run below the daemon reaches line 188 when the
    clock reads exactly the deadline, and [now.After(to.t)] is false. *)
Lemma C6_counterexample :
  ∃ s, run run_on_the_deadline (NewDaemon 0) = Some s ∧ ¬ exits_iff_delta_nonpositive s.
Proof.
  eexists. split; [vm_compute; reflexivity|].
  intros Hexit.
  specialize (Hexit 0%nat _ eq_refl eq_refl eq_refl).
  vm_compute in Hexit. destruct Hexit as [_ Hexit].
  by specialize (Hexit ltac:(discriminate)).
Qed.

(** C6, amended: at line 188, with [delta = to.t - now] for the record
    [to] at the top of the heap, the daemon leaves the sleep loop for
    [heap.Pop] exactly when [delta < 0]; otherwise, also at [delta = 0],
    it unlocks [d.mu], starts a timer that expires [delta] after the clock
    reading at its start, and waits: it goes on to lock [d.mu] again when
    the timer has expired or when [d.wake] holds a token, and not
    before. *)
Theorem C6_sleep_loop_exit s r :
  wpc s = W188 → peek (timeouts s) = Some r →
  let delta := Sub (t (deref (store s) r)) (clock s) in
  (∃ s', step s ADaemon = Some s' ∧
         (wpc s' = W205 ↔ delta < 0) ∧
         (0 ≤ delta → wpc s' = W193 r (clock s))) ∧
  (∀ s1, wpc s1 = W193 r (clock s) →
         step s1 ADaemon
         = Some (set_wpc (W194 r (clock s)) (log (EUnlock MInt) (Unlock_mu s1)))) ∧
  (∀ s2, wpc s2 = W194 r (clock s) → store s2 = store s →
         step s2 ADaemon = Some (set_wpc (W195 (clock s2 + delta)) s2)) ∧
  (∀ s3 expiry, wpc s3 = W195 expiry →
         step s3 ADaemon = None ∧
         (step s3 ATimer = if expiry <=? clock s3 then Some (set_wpc W198 s3) else None) ∧
         (step s3 AWake
          = if wake s3 then Some (set_wpc W198 (set_wake false s3)) else None)).
Proof.
  intros Hpc Hpeek delta. split_and!.
  - simpl. unfold daemon. rewrite Hpc, Hpeek. unfold After, NowMonotonic.
    fold delta. unfold Sub in delta.
    destruct (Z.ltb_spec (t (deref (store s) r)) (clock s)).
    + eexists. split; [done|]. simpl. split; [|lia]. split; [lia|done].
    + eexists. split; [done|]. simpl. split; [|done]. split; [done|lia].
  - intros s1 H1. simpl. unfold daemon. by rewrite H1.
  - intros s2 H2 Hst. simpl. unfold daemon. by rewrite H2, Hst.
  - intros s3 e H3. simpl. unfold daemon, daemon_timer, daemon_wake. by rewrite H3.
Qed.

Lemma C6_witness :
  ∃ s, run run_on_the_deadline (NewDaemon 0) = Some s ∧
       ∃ s', step s ADaemon = Some s' ∧ wpc s' = W193 0 5.
Proof.
  eexists. split; [vm_compute; reflexivity|].
  match goal with
  | |- ∃ s', step ?s _ = _ ∧ _ =>
      destruct (proj1 (C6_sleep_loop_exit s 0%nat ltac:(vm_compute; reflexivity)
                         ltac:(vm_compute; reflexivity)))
        as (s' & Hstep & _ & Hsleep)
  end.
  exists s'. split; [exact Hstep|]. apply Hsleep. vm_compute. discriminate.
Defined.

(** C7, as the spec states it: after a callback returns, the daemon
    unlocks the internal mutex before the external one.  The code unlocks
    [d.locker] at line 235 and [d.mu] at line 237: in the run below the
    two unlocks after the return are of the external mutex, then of the
    internal one. *)
Lemma C7_counterexample :
  ∃ s, run run_one_timeout (NewDaemon 0) = Some s ∧
       ¬ released_in_order MInt MExt (trace s).
Proof.
  eexists. split; [vm_compute; reflexivity|].
  intros Hord.
  specialize (Hord [EUnlock MInt; EUnlock MExt] 0%nat _ eq_refl).
  simpl in Hord. destruct Hord as [?|[?|[u Hu]]]; [done|done|].
  destruct u as [|? [|? [|? ?]]]; discriminate.
Qed.

(** C7, amended: in every iteration of the daemon that fires a callback,
    after the callback returns the daemon unlocks the external mutex
    first, then the internal one. *)
Theorem C7_unlock_order now acts s :
  run acts (NewDaemon now) = Some s → released_in_order MExt MInt (trace s).
Proof.
  intros Hrun. apply Inv_release_order.
  by destruct (Inv_run _ _ _ Hrun) as (_ & _ & _ & _ & _ & _ & _ & _ & ?).
Qed.

Lemma C7_witness :
  ∃ s, run run_one_timeout (NewDaemon 0) = Some s ∧
       trace s = [EUnlock MInt; EUnlock MExt] ++ EReturn 0 ::
                 [EFire 0 6; ELock MInt; ELock MExt; EUnlock MInt; EPop 0; ELock MInt;
                  EUnlock MInt; ELock MInt; EAddRet 0 0; EPush 0] ∧
       released_in_order MExt MInt (trace s).
Proof.
  eexists. split; [vm_compute; reflexivity|]. split; [vm_compute; reflexivity|].
  match goal with
  | |- released_in_order _ _ (trace ?s) =>
      exact (C7_unlock_order 0 run_one_timeout s ltac:(vm_compute; reflexivity))
  end.
Defined.

(** C8. [Cancel] is a single store of 1 into the record's cancel flag and
    takes no mutex of the daemon: on an allocated record it goes through
    whoever holds [d.mu] and [d.locker], and changes nothing but that
    flag.  A new record starts with the flag at 0, no statement of any
    goroutine takes a flag from 1 back to another value, and cancelling
    twice leaves the same state as cancelling once. *)
Theorem C8_Cancel s r x :
  store s !! r = Some x →
  step s (ACancel r) = Some (set_store (<[r := Cancel x]> (store s)) s) ∧
  cancel (Cancel x) = 1 ∧ f (Cancel x) = f x ∧ t (Cancel x) = t x ∧
  Cancel (Cancel x) = Cancel x ∧
  (∀ s1, step s (ACancel r) = Some s1 →
         mu s1 = mu s ∧ locker s1 = locker s ∧ cancel (deref (store s1) r) = 1 ∧
         step s1 (ACancel r) = Some s1) ∧
  (∀ a s', step s a = Some s' → cancel x = 1 → cancel (deref (store s') r) = 1) ∧
  (∀ c f0 t0 s', step s (ACallAddTimeout c f0 t0) = Some s' →
                 cancel (deref (store s') (length (store s))) = 0).
Proof.
  intros Hx. split_and!; try done.
  - simpl. unfold do_Cancel. by rewrite Hx.
  - intros s1. simpl. unfold do_Cancel. rewrite Hx. intros ?; simplify_eq. simpl.
    apply lookup_lt_Some in Hx as Hlt.
    split_and!; try done.
    + unfold deref. by rewrite list_lookup_insert_eq.
    + rewrite list_lookup_insert_eq by done. unfold set_store. simpl.
      by rewrite list_insert_insert_eq.
  - intros a s' Hstep Hc. apply lookup_lt_Some in Hx as Hlt.
    assert (Hd : cancel (deref (store s) r) = 1) by (unfold deref; by rewrite Hx).
    clear Hc Hx.
    step_cases Hstep; try done.
    + by rewrite deref_app.
    + unfold deref in *.
      match goal with
      | |- context [<[?r0 := _]> _ !! _] => destruct (decide (r = r0)) as [->|?]
      end.
      * by rewrite list_lookup_insert_eq by (by eapply lookup_lt_Some).
      * by rewrite list_lookup_insert_ne.
  - intros c f0 t0 s'. simpl. unfold call_AddTimeout. case_match; try done.
    intros ?; simplify_eq. simpl. unfold deref.
    by rewrite lookup_app_r, Nat.sub_diag.
Qed.

Lemma C8_witness :
  ∃ s s1, run (AddTimeout 0 7 5) (NewDaemon 0) = Some s ∧
          step s (ACancel 0) = Some s1 ∧
          cancel (deref (store s1) 0%nat) = 1 ∧ step s1 (ACancel 0) = Some s1.
Proof.
  eexists _, _. split; [vm_compute; reflexivity|].
  match goal with
  | |- step ?s _ = _ ∧ _ =>
      destruct (C8_Cancel s 0%nat (mkTimeout 7 5 0) ltac:(vm_compute; reflexivity))
        as (Hstep & _ & _ & _ & _ & Hs1 & _)
  end.
  split; [exact Hstep|]. by destruct (Hs1 _ Hstep) as (_ & _ & ? & ?).
Defined.

(** ** Sequences of heap operations *)

Lemma heap_run_is_heap st ops : ∀ h h', is_heap st h → heap_run st ops h = Some h' → is_heap st h'.
Proof.
  induction ops as [|[x|] ops IH]; intros h h' Hh Hrun; simpl in Hrun.
  - by simplify_eq.
  - destruct (heap_Push_spec st h x Hh) as (h1 & Hp & Hh1 & _).
    rewrite Hp in Hrun. by eapply IH.
  - destruct (decide (h = [])) as [->|Hne]; [by rewrite heap_Pop_nil in Hrun|].
    destruct (heap_Pop_spec st h Hh Hne) as (r & h1 & Hp & _ & _ & Hh1).
    rewrite Hp in Hrun. by eapply IH.
Qed.

Lemma is_heap_nil st : is_heap st [].
Proof. intros k a b Hk. simpl in Hk. lia. Qed.

(** C9. The daemon's heap is a min-heap by deadline.  After any sequence
    of [heap.Push] and [heap.Pop] from the empty slice, and so in every
    state of a run of the daemon, a non-empty heap has at index 0, which
    is what [d.peek()] returns, a record whose deadline is at most the
    deadline of every record in the heap. *)
Theorem C9_heap_top_is_earliest :
  (∀ st ops h, heap_run st ops [] = Some h → h ≠ [] →
     ∃ r, peek h = Some r ∧ ∀ x, x ∈ h → t (deref st r) ≤ t (deref st x)) ∧
  (∀ now acts s, run acts (NewDaemon now) = Some s → timeouts s ≠ [] →
     ∃ r, peek (timeouts s) = Some r ∧
          ∀ x, x ∈ timeouts s → t (deref (store s) r) ≤ t (deref (store s) x)).
Proof.
  assert (Hmin : ∀ st h, is_heap st h → h ≠ [] →
            ∃ r, peek h = Some r ∧ ∀ x, x ∈ h → t (deref st r) ≤ t (deref st x)).
  { intros st h Hh Hne. destruct h as [|r h]; [done|]. exists r. split; [done|].
    intros x [k Hk]%list_elem_of_lookup_1.
    by apply (heap_root_min st (r :: h) r Hh eq_refl k x). }
  split.
  - intros st ops h Hrun. apply Hmin.
    eapply heap_run_is_heap; [apply is_heap_nil|done].
  - intros now acts s Hrun. apply Hmin.
    by destruct (Inv_run _ _ _ Hrun) as (_ & (_ & _ & _ & ? & _) & _).
Qed.

(** C10. The daemon goroutine never reads the heap out of bounds: in no
    state of a run has it panicked, and from the empty-wait stage on, up
    to [heap.Pop], the heap holds at least one record, so that [d.peek()]
    finds a record at line 188 and [heap.Pop] returns one at line 205,
    although [d.cond.Wait()] sits under an [if] and not under a loop. *)
Theorem C10_heap_not_empty now acts s :
  run acts (NewDaemon now) = Some s →
  wpc s ≠ WPanic ∧
  (w_needs_heap (wpc s) = true → timeouts s ≠ []) ∧
  (wpc s = W188 → ∃ r, peek (timeouts s) = Some r) ∧
  (wpc s = W205 → ∃ r h, heap_Pop (store s) (timeouts s) = Some (r, h)) ∧
  (w_woken s = true → stopped s = true ∨ timeouts s ≠ []).
Proof.
  intros Hrun.
  destruct (Inv_run _ _ _ Hrun) as (_ & (_ & _ & _ & Hheap & _) & (Hp & Hn & Hk) & _).
  split_and!; try done.
  - intros Hpc. rewrite Hpc in Hn. specialize (Hn eq_refl).
    destruct (timeouts s) as [|r h]; [done|]. by exists r.
  - intros Hpc. rewrite Hpc in Hn. specialize (Hn eq_refl).
    destruct (heap_Pop_spec _ _ Hheap Hn) as (r & h & ? & _). by exists r, h.
Qed.

Lemma C10_witness :
  ∃ s, run run_on_the_deadline (NewDaemon 0) = Some s ∧
       wpc s = W188 ∧ timeouts s ≠ [].
Proof.
  eexists. split; [vm_compute; reflexivity|]. split; [vm_compute; reflexivity|].
  match goal with
  | |- timeouts ?s ≠ [] =>
      apply (proj1 (proj2 (C10_heap_not_empty 0 run_on_the_deadline s
                             ltac:(vm_compute; reflexivity))))
  end.
  vm_compute; reflexivity.
Defined.

(** * Further properties of the daemon *)

(** ** More invariants *)

Lemma Inv_checked_step s a s' :
  Inv_lock s → Inv_checked s → step s a = Some s' → Inv_checked s'.
Proof.
  intros Hlock Hck Hstep. unfold Inv_checked in *.
  step_cases Hstep.
  all: try match goal with
       | H : cpc _ ?c = _ |- _ =>
           pose proof (Inv_lock_excl s c Hlock) as Hex; rewrite H in Hex; simpl in Hex
       end.
  all: know_pcs; simpl in *; try done; try (by auto).
  all: intros Hc; specialize (Hex eq_refl); destruct (wpc s); simpl in *; done.
Qed.

Lemma heap_Push_nil st x : heap_Push st [] x = Some [x].
Proof. reflexivity. Qed.

Lemma Inv_cond_step s a s' :
  Inv_lock s → Inv_checked s → Inv_cond s → step s a = Some s' → Inv_cond s'.
Proof.
  intros Hlock Hck (Hcd & H174) Hstep. unfold Inv_checked in Hck.
  step_cases Hstep; unfold Inv_cond; simpl.
  all: try match goal with
       | H : cpc _ ?c = _ |- _ =>
           pose proof (Inv_lock_excl s c Hlock) as Hex; rewrite H in Hex; simpl in Hex
       end.
  all: know_pcs; simpl in *.
  all: try (split; [intros Hc; by destruct (Hcd Hc) as (? & ? & ?)|done]).
  all: try (split; [done|by auto]).

  - (* W167: the heap is empty *)
    split; [intros Hc; by destruct (Hcd Hc)|]. intros _.
    destruct (timeouts s); [done|by simpl in *].
  - (* W174: the daemon joins the notify list *)
    split; [|done]. intros _. split_and!; [done|by apply H174|by apply Hck].
  - (* W174w: woken *)
    split; [|done]. intros Hc. congruence.
  - (* heap.Push, with the Broadcast *)
    split; [done|]. intros Hpc. rewrite Hpc in Hex. by specialize (Hex eq_refl).
  - (* heap.Push, without: the heap was not empty *)
    split.
    + intros Hc. destruct (Hcd Hc) as (_ & Hnil & _).
      match goal with
      | H : heap_Push _ _ _ = Some _ |- _ => rewrite Hnil, heap_Push_nil in H
      end.
      by simplify_eq.
    + intros Hpc. rewrite Hpc in Hex. by specialize (Hex eq_refl).
  - (* Stop, without the Broadcast: the heap is not empty *)
    split; [|done]. intros Hc. destruct (Hcd Hc) as (_ & Hnil & _).
    by rewrite Hnil in *.
Qed.

Lemma Inv_wake_step s a s' :
  Inv_lock s → Inv_stop s → Inv_checked s → Inv_wake s → step s a = Some s' →
  Inv_wake s'.
Proof.
  intros Hlock (Hr & Hc & _ & _) Hck (W1 & W2 & W3) Hstep. unfold Inv_checked in Hck.
  step_cases Hstep; unfold Inv_wake; simpl.
  all: try match goal with
       | H : cpc _ ?c = _ |- _ =>
           pose proof (W1 c) as W1c; pose proof (Hc c) as Hcc;
           rewrite H in W1c, Hcc; simpl in W1c, Hcc
       end.
  all: know_pcs; simpl in *.
  all: try (split_and!; by auto).
  all: try (split_and!; [intros c'; upd_cases; by auto|by auto| ];
            intros Hsl Hps;
            first [ by left
                  | destruct (W3 Hsl Hps) as [?|[c0 Hc0]]; [by left|];
                    right; exists c0; upd_cases; [congruence|done] ]).

  1: { (* W193: the daemon unlocks to sleep; no Stop has stored yet *)
    specialize (Hck eq_refl).
    split_and!; [|intros Hs; specialize (Hr Hs); congruence|done].
    intros c Hs _. assert (stopped s = true); [|congruence].
    apply (Hc c). by destruct (cpc s c). }
  all: split_and!;
    [ intros c'; upd_cases; simpl;
      first [done|apply W1|by apply W1c|intros; by apply W1c]
    | first [by auto|intros; by apply W1c|done]
    | intros Hsl Hps;
      match goal with
      | H : cpc _ ?c = _ |- _ =>
          first
            [ by left
            | right; exists c; rewrite upd_eq; done
            | destruct (W3 Hsl Hps) as [?|[c0 Hc0]]; [by left|];
              right; exists c0; destruct (decide (c0 = c)) as [->|?];
              [ by rewrite H in Hc0 | by rewrite upd_ne ] ]
      end ].
Qed.

Lemma Inv2_init now : Inv2 (NewDaemon now).
Proof.
  unfold Inv2, Inv_checked, Inv_cond, Inv_wake, NewDaemon. simpl.
  split_and!; done.
Qed.

Lemma Inv2_step s a s' : Inv s → Inv2 s → step s a = Some s' → Inv2 s'.
Proof.
  intros (Hl & _ & _ & _ & Hs & _) (Hck & Hcd & Hwk) Hstep. unfold Inv2. split_and!.
  - by eapply Inv_checked_step.
  - by eapply Inv_cond_step.
  - by eapply Inv_wake_step.
Qed.

Lemma Inv_Inv2_reachable now s : reachable (NewDaemon now) s → Inv s ∧ Inv2 s.
Proof.
  induction 1 as [|s a s' _ [IH1 IH2] Hstep]; [split; [apply Inv_init|apply Inv2_init]|].
  split; [by eapply Inv_step|by eapply Inv2_step].
Qed.

Lemma Inv2_run now acts s : run acts (NewDaemon now) = Some s → Inv2 s.
Proof. intros. by eapply Inv_Inv2_reachable, run_reachable. Qed.

(** ** Locks *)

(** X1. [d.mu] gives mutual exclusion: at most one client goroutine is
    inside the locked part of [AddTimeout] or [Stop], and none is while
    the daemon goroutine is inside one of its own locked stretches. *)
Theorem mu_mutual_exclusion now acts s :
  run acts (NewDaemon now) = Some s →
  (∀ c c', c_holds_mu (cpc s c) = true → c_holds_mu (cpc s c') = true → c = c') ∧
  (∀ c, c_holds_mu (cpc s c) = true → w_holds_mu (wpc s) = false).
Proof.
  intros Hrun. destruct (Inv_run _ _ _ Hrun) as (Hlock & _).
  split; [|intros c; by apply Inv_lock_excl].
  destruct Hlock as (_ & Hc & _). intros c c' H1 H2.
  rewrite Hc in H1, H2. apply bool_decide_eq_true in H1, H2. congruence.
Qed.

Lemma mu_mutual_exclusion_witness :
  ∃ s, run run_three_clients (NewDaemon 0) = Some s ∧
       cpc s 1%nat = S131 ∧ w_holds_mu (wpc s) = false.
Proof.
  eexists. split; [vm_compute; reflexivity|]. split; [vm_compute; reflexivity|].
  match goal with
  | |- w_holds_mu (wpc ?s) = _ =>
      apply (proj2 (mu_mutual_exclusion 0 run_three_clients s
                      ltac:(vm_compute; reflexivity)) 1%nat)
  end.
  vm_compute; reflexivity.
Defined.

(** X2. The lock order.  The daemon goroutine waits for [d.locker] only
    at line 212, where it does not hold [d.mu]; so it never holds [d.mu]
    while a client that holds [d.locker] waits for [d.mu] in
    [AddTimeout]. *)
Theorem daemon_lock_order now acts s :
  run acts (NewDaemon now) = Some s →
  (∀ to, wpc s = W212 to → mu s ≠ Some Worker) ∧
  (mu s = Some Worker → locker s ≠ Some Worker → ∀ a s', step s a = Some s' →
   locker s' ≠ Some Worker).
Proof.
  intros Hrun. destruct (Inv_run _ _ _ Hrun) as ((Hw & _ & Hl) & _). split.
  - intros to Hpc Hmu. rewrite Hpc, Hmu in Hw. simpl in Hw. by case_bool_decide.
  - intros Hmu Hlk a s' Hstep.
    rewrite Hmu in Hw. rewrite bool_decide_eq_true_2 in Hw by done.
    step_cases Hstep; try done; try congruence; know_pcs; simpl in *; congruence.
Qed.

Lemma daemon_lock_order_witness :
  ∃ s, run run_Stop_at_212 (NewDaemon 1) = Some s ∧ locker s = Some Worker ∧
       ∃ s0, run run_to_212 (NewDaemon 1) = Some s0 ∧
             wpc s0 = W212 0 ∧ mu s0 ≠ Some Worker.
Proof.
  eexists. split; [vm_compute; reflexivity|]. split; [vm_compute; reflexivity|].
  eexists. split; [vm_compute; reflexivity|]. split; [vm_compute; reflexivity|].
  match goal with
  | |- mu ?s ≠ _ =>
      apply (proj1 (daemon_lock_order 1 run_to_212 s
                      ltac:(vm_compute; reflexivity)) 0%nat)
  end.
  vm_compute; reflexivity.
Defined.

(** X3. A callback runs under both locks: from the call of [to.f()] to
    its return the daemon goroutine holds [d.locker] and [d.mu]; and
    while a client holds [d.locker] no callback is running or has passed
    its last look at [d.stopped] and the cancel flag. *)
Theorem callback_under_locks now acts s :
  run acts (NewDaemon now) = Some s →
  (∀ r, wpc s = W233 r ∨ wpc s = W233r r → locker s = Some Worker ∧ mu s = Some Worker) ∧
  (∀ c, locker s = Some (Client c) → w_firing (wpc s) = false).
Proof.
  intros Hrun. destruct (Inv_run _ _ _ Hrun) as ((Hw & _ & Hl) & _). split.
  - intros r [Hpc|Hpc]; rewrite Hpc in *; simpl in *;
      symmetry in Hw, Hl; by apply bool_decide_eq_true in Hw, Hl.
  - intros c Hc. rewrite Hc in Hl. destruct (wpc s); simpl in *; try done;
      by case_bool_decide.
Qed.

Lemma callback_under_locks_witness :
  ∃ s, run run_Stop_during_callback (NewDaemon 1) = Some s ∧
       wpc s = W233r 0 ∧ locker s = Some Worker ∧ mu s = Some Worker.
Proof.
  eexists. split; [vm_compute; reflexivity|]. split; [vm_compute; reflexivity|].
  match goal with
  | |- locker ?s = _ ∧ _ =>
      apply (proj1 (callback_under_locks 1 run_Stop_during_callback s
                      ltac:(vm_compute; reflexivity)) 0%nat)
  end.
  right. vm_compute; reflexivity.
Defined.

(** ** Cancel *)

Lemma cancelled_unfired_step r s a s' :
  cancelled_unfired r s → step s a = Some s' → cancelled_unfired r s'.
Proof.
  intros (Hc & Hlt & Hpc & Hf) Hstep. unfold cancelled_unfired.
  step_cases Hstep; know_pcs; simpl in *; try done.
  - split_and!; [done|done| |done]. intros ?; simplify_eq. lia.
  - split_and!; [done|done|done|].
    intros [->|?]%elem_of_cons; [done|done].
  - rewrite length_app, deref_app by done. simpl. split_and!; [done|lia|done|done].
  - rewrite length_insert. split_and!; [|done|done|done].
    unfold deref in *.
    match goal with
    | |- context [<[?r0 := _]> _ !! _] => destruct (decide (r = r0)) as [->|?]
    end.
    + by rewrite list_lookup_insert_eq.
    + by rewrite list_lookup_insert_ne.
Qed.

Lemma cancelled_unfired_run r acts : ∀ s s',
  cancelled_unfired r s → run acts s = Some s' → cancelled_unfired r s'.
Proof.
  induction acts as [|a acts IH]; intros s s' Hc Hrun; simpl in Hrun; [by simplify_eq|].
  destruct (step s a) as [s1|] eqn:Hs; [|done].
  eapply IH; [|done]. by eapply cancelled_unfired_step.
Qed.

(** X4. A timeout cancelled by a goroutine that holds [d.locker], before
    its callback has been entered, never fires: whatever happens after the
    [Cancel], the callback is not called. *)
Theorem Cancel_under_locker_prevents_callback now acts0 s c r acts s' :
  run acts0 (NewDaemon now) = Some s →
  locker s = Some (Client c) →
  (r < length (store s))%nat →
  r ∉ fired (trace s) →
  run (ACancel r :: acts) s = Some s' →
  (r ∉ fired (trace s')) ∧ cancel (deref (store s') r) = 1.
Proof.
  intros Hrun Hlk Hlt Hnf Hrun'.
  destruct (Inv_run _ _ _ Hrun) as ((_ & _ & Hl) & _).
  simpl in Hrun'. unfold do_Cancel in Hrun'.
  destruct (lookup_lt_is_Some_2 (store s) r Hlt) as [x Hx]. rewrite Hx in Hrun'.
  assert (Hcu : cancelled_unfired r (set_store (<[r:=Cancel x]> (store s)) s)).
  { unfold cancelled_unfired. simpl. rewrite length_insert. split_and!; try done.
    - unfold deref. by rewrite list_lookup_insert_eq.
    - intros Hpc. rewrite Hpc, Hlk in Hl. by vm_compute in Hl. }
  by destruct (cancelled_unfired_run r acts _ _ Hcu Hrun') as (? & _ & _ & ?).
Qed.

Lemma Cancel_under_locker_prevents_callback_witness :
  ∃ s s', run run_Cancel_under_lock (NewDaemon 0) = Some s ∧
          run (ACancel 0 :: run_after_Cancel) s = Some s' ∧
          popped (trace s') = [0%nat] ∧ 0%nat ∉ fired (trace s').
Proof.
  eexists _, _. split; [vm_compute; reflexivity|].
  split; [vm_compute; reflexivity|]. split; [vm_compute; reflexivity|].
  match goal with
  | |- _ ∉ fired (trace ?s') =>
      refine (proj1 (Cancel_under_locker_prevents_callback 0 run_Cancel_under_lock
                _ 0%nat 0%nat run_after_Cancel s'
                ltac:(vm_compute; reflexivity) ltac:(vm_compute; reflexivity)
                ltac:(vm_compute; lia) _ ltac:(vm_compute; reflexivity)))
  end.
  vm_compute. apply not_elem_of_nil.
Defined.

(** ** Waking the daemon *)

(** X5. No wake-up of [d.cond] is lost: the daemon goroutine stays parked
    in [d.cond.Wait()] exactly as long as the heap is empty and the daemon
    is not stopped. *)
Theorem Wait_blocks_iff_idle now acts s :
  run acts (NewDaemon now) = Some s →
  wpc s = W174w →
  (step s ADaemon = None ↔ timeouts s = [] ∧ stopped s = false).
Proof.
  intros Hrun Hpc.
  destruct (Inv_run _ _ _ Hrun) as (_ & _ & (_ & _ & Hk) & _).
  destruct (Inv2_run _ _ _ Hrun) as (_ & (Hcd & _) & _).
  simpl. unfold daemon. rewrite Hpc. unfold w_woken in Hk. rewrite Hpc in Hk.
  destruct (cond s); simpl in *.
  - split; [intros _|done]. by destruct Hcd as (_ & ? & ?).
  - split; [done|]. intros [Hnil Hst]. destruct Hk as [?|?]; [done|congruence|done].
Qed.

Lemma Wait_blocks_iff_idle_witness :
  ∃ s, run run_to_Wait (NewDaemon 0) = Some s ∧ step s ADaemon = None.
Proof.
  eexists. split; [vm_compute; reflexivity|].
  match goal with
  | |- step ?s _ = _ =>
      apply (Wait_blocks_iff_idle 0 run_to_Wait s ltac:(vm_compute; reflexivity)
               ltac:(vm_compute; reflexivity))
  end.
  split; vm_compute; reflexivity.
Defined.

(** X6. [Stop] wakes the daemon: once a call of [Stop] has returned,
    [d.stopped] is set, the daemon goroutine is not parked in
    [d.cond.Wait()], and if it sleeps in the select at line 194 there is a
    token in [d.wake] for it to receive. *)
Theorem Stop_wakes_daemon now acts s :
  run acts (NewDaemon now) = Some s →
  Stop_returned (trace s) = true →
  stopped s = true ∧ cond s = false ∧
  (wpc s = W174w → step s ADaemon = Some (set_wpc W174l s)) ∧
  (∀ e, wpc s = W195 e → step s AWake = Some (set_wpc W198 (set_wake false s))).
Proof.
  intros Hrun Hret.
  destruct (Inv_run _ _ _ Hrun) as (_ & _ & _ & _ & (Hr & _) & _).
  destruct (Inv2_run _ _ _ Hrun) as (_ & (Hcd & _) & (_ & W2 & _)).
  assert (Hst : stopped s = true) by auto.
  assert (Hc : cond s = false).
  { destruct (cond s); [|done]. destruct Hcd as (_ & _ & ?); [done|congruence]. }
  split_and!; try done.
  - intros Hpc. simpl. unfold daemon. by rewrite Hpc, Hc.
  - intros e Hpc. simpl. unfold daemon_wake. rewrite Hpc in *. by rewrite W2.
Qed.

Lemma Stop_wakes_daemon_witness :
  ∃ s, run run_Stop_asleep (NewDaemon 0) = Some s ∧ wpc s = W195 50 ∧
       step s AWake = Some (set_wpc W198 (set_wake false s)).
Proof.
  eexists. split; [vm_compute; reflexivity|]. split; [vm_compute; reflexivity|].
  match goal with
  | |- step ?s _ = _ =>
      refine (proj2 (proj2 (proj2 (Stop_wakes_daemon 0 run_Stop_asleep s
                ltac:(vm_compute; reflexivity) ltac:(vm_compute; reflexivity)))) 50 _)
  end.
  vm_compute; reflexivity.
Defined.

(** X7. [AddTimeout] wakes the daemon: if a record has been pushed since
    the daemon goroutine unlocked [d.mu] to sleep in the select at line
    194, and no call of [AddTimeout] stands between its push and its send
    on [d.wake], then [d.wake] holds a token, and the daemon can receive
    it and look at the heap again. *)
Theorem AddTimeout_wakes_daemon now acts s e :
  run acts (NewDaemon now) = Some s →
  wpc s = W195 e →
  pushed_since_unlock (trace s) ≠ [] →
  (∀ c, c_before_send (cpc s c) = false) →
  step s AWake = Some (set_wpc W198 (set_wake false s)).
Proof.
  intros Hrun Hpc Hps Hnb.
  destruct (Inv2_run _ _ _ Hrun) as (_ & _ & (_ & _ & W3)).
  rewrite Hpc in W3. destruct (W3 eq_refl Hps) as [Hw|[c Hc]].
  - simpl. unfold daemon_wake. by rewrite Hpc, Hw.
  - by rewrite Hnb in Hc.
Qed.

Lemma AddTimeout_wakes_daemon_witness :
  ∃ s, run run_AddTimeout_asleep (NewDaemon 0) = Some s ∧
       timeouts s = [1%nat; 0%nat] ∧
       step s AWake = Some (set_wpc W198 (set_wake false s)).
Proof.
  eexists. split; [vm_compute; reflexivity|]. split; [vm_compute; reflexivity|].
  match goal with
  | |- step ?s _ = _ =>
      apply (AddTimeout_wakes_daemon 0 run_AddTimeout_asleep s 50
               ltac:(vm_compute; reflexivity) ltac:(vm_compute; reflexivity))
  end.
  - vm_compute. discriminate.
  - intros c. vm_compute. by repeat (destruct c as [|c]; [done|]).
Defined.

(** ** After [d.stopped] is set *)

Lemma stopped_step s a s' :
  stopped s = true → w_checked (wpc s) = false → step s a = Some s' →
  stopped s' = true ∧ w_checked (wpc s') = false ∧
  popped (trace s') = popped (trace s) ∧ fired (trace s') = fired (trace s) ∧
  (w_left (wpc s') + (if is_daemon_action a then 1 else 0) ≤ w_left (wpc s))%nat.
Proof.
  intros Hst Hck Hstep.
  step_cases Hstep; know_pcs; simpl in *; try done; try (split_and!; done || lia).
  all: repeat match goal with
       | |- context [Broadcast ?x] => unfold Broadcast; simpl
       | |- context [send_wake ?x] => unfold send_wake; simpl
       | |- context [if ?b then _ else _] => destruct b; simpl
       end; try (split_and!; done || lia).
Qed.

(** X8. Once [d.stopped] is set, it stays set, the daemon goroutine
    executes at most five more statements, and it neither pops a record
    nor calls a callback again. *)
Theorem daemon_winds_down_once_stopped now acts s acts' s' :
  run acts (NewDaemon now) = Some s →
  stopped s = true →
  run acts' s = Some s' →
  stopped s' = true ∧ (daemon_steps acts' ≤ 5)%nat ∧
  popped (trace s') = popped (trace s) ∧ fired (trace s') = fired (trace s).
Proof.
  intros Hrun Hst Hrun'.
  destruct (Inv2_run _ _ _ Hrun) as (Hck & _).
  assert (Hc : w_checked (wpc s) = false).
  { destruct (w_checked (wpc s)) eqn:E; [|done]. specialize (Hck E). congruence. }
  clear Hrun Hck.
  assert (Hgen : stopped s' = true ∧
                 (w_left (wpc s') + daemon_steps acts' ≤ w_left (wpc s))%nat ∧
                 popped (trace s') = popped (trace s) ∧
                 fired (trace s') = fired (trace s)).
  { revert s Hst Hc Hrun'.
    induction acts' as [|a acts' IH]; intros s Hst Hc Hrun'; simpl in Hrun'.
    - simplify_eq. unfold daemon_steps. simpl. split_and!; [done|lia|done|done].
    - destruct (step s a) as [s1|] eqn:Hs; [|done].
      destruct (stopped_step _ _ _ Hst Hc Hs) as (Hst1 & Hc1 & Hp & Hf & Hl).
      destruct (IH _ Hst1 Hc1 Hrun') as (? & Hl' & Hp' & Hf').
      split_and!; [done| |congruence|congruence].
      unfold daemon_steps in *. rewrite filter_cons.
      destruct (decide (is_daemon_action a = true)) as [E|E]; simpl.
      + rewrite E in Hl. lia.
      + apply not_true_is_false in E. rewrite E in Hl. lia. }
  destruct Hgen as (? & Hl & ? & ?). split_and!; try done.
  assert (w_left (wpc s) ≤ 5)%nat by (destruct (wpc s); simpl; lia). lia.
Qed.

Lemma daemon_winds_down_once_stopped_witness :
  ∃ s s', run run_Stop_asleep (NewDaemon 0) = Some s ∧
          run (wind_down (wpc s)) s = Some s' ∧ wpc s' = WRet ∧
          fired (trace s') = fired (trace s).
Proof.
  eexists _, _. split; [vm_compute; reflexivity|].
  split; [vm_compute; reflexivity|]. split; [vm_compute; reflexivity|].
  match goal with
  | |- fired (trace ?s') = fired (trace ?s) =>
      apply (daemon_winds_down_once_stopped 0 run_Stop_asleep s (wind_down (wpc s)) s'
               ltac:(vm_compute; reflexivity) ltac:(vm_compute; reflexivity)
               ltac:(vm_compute; reflexivity))
  end.
Defined.

(** X9. The daemon goroutine returns after [Stop]: once a call of [Stop]
    has returned, if no other goroutine holds [d.mu] or [d.locker], the
    daemon goroutine runs without blocking to its [return], in at most
    five statements, and leaves both mutexes unlocked and the heap as it
    was. *)
Theorem daemon_returns_after_Stop now acts s :
  run acts (NewDaemon now) = Some s →
  Stop_returned (trace s) = true →
  (∀ c, mu s ≠ Some (Client c)) →
  (∀ c, locker s ≠ Some (Client c)) →
  ∃ s', run (wind_down (wpc s)) s = Some s' ∧ wpc s' = WRet ∧
        mu s' = None ∧ locker s' = None ∧ timeouts s' = timeouts s.
Proof.
  intros Hrun Hret Hmu Hlk.
  destruct (Inv_run _ _ _ Hrun) as ((Hwm & _ & Hwl) & _ & (Hnp & _) & _ & (Hr & _) & _).
  destruct (Inv2_run _ _ _ Hrun) as (Hck & (Hcd & _) & (_ & W2 & _)).
  specialize (Hr Hret).
  assert (Hc : cond s = false).
  { destruct (cond s); [|done]. destruct Hcd as (_ & _ & ?); [done|congruence]. }
  assert (Hk : w_checked (wpc s) = false).
  { destruct (w_checked (wpc s)) eqn:E; [|done]. specialize (Hck E). congruence. }
  clear Hrun Hck Hcd.
  destruct s as [lk ts cd wk st m sto clk pc cp tr]; simpl in *. subst st cd.
  destruct pc; simpl in *; try done.
  all: try (specialize (W2 Hret eq_refl); subst wk).
  all: symmetry in Hwm, Hwl;
       first [apply bool_decide_eq_true in Hwm|apply bool_decide_eq_false in Hwm];
       first [apply bool_decide_eq_true in Hwl|apply bool_decide_eq_false in Hwl].
  all: destruct m as [[|c]|]; try done; try (by destruct (Hmu c)).
  all: destruct lk as [[|c]|]; try done; try (by destruct (Hlk c)).
  all: eexists; split; [vm_compute; reflexivity|]; done.
Qed.

Lemma daemon_returns_after_Stop_witness :
  ∃ s s', run run_Stop_asleep (NewDaemon 0) = Some s ∧
          run [AWake; ADaemon; ADaemon; ADaemon] s = Some s' ∧ wpc s' = WRet.
Proof.
  eexists. 
  match goal with
  | |- ∃ s', run _ (NewDaemon 0) = Some ?s ∧ _ =>
      destruct (daemon_returns_after_Stop 0 run_Stop_asleep s
                  ltac:(vm_compute; reflexivity) ltac:(vm_compute; reflexivity))
        as (s' & H1 & H2 & _)
  end.
  - intros c. vm_compute. discriminate.
  - intros c. vm_compute. discriminate.
  - exists s'. split; [vm_compute; reflexivity|]. split; [exact H1|exact H2].
Defined.

(** ** The heap of timeouts *)

Lemma heap_run_nil_is_heap st ops h : heap_run st ops [] = Some h → is_heap st h.
Proof. apply heap_run_is_heap, is_heap_nil. Qed.

Lemma heap_min_rest st r h h' :
  is_heap st h → h !! 0%nat = Some r → h ≡ₚ r :: h' →
  ∀ x, x ∈ h' → key st r ≤ key st x.
Proof.
  intros Hh Hr Hperm x Hx.
  assert (x ∈ h) as [k Hk]%list_elem_of_lookup_1.
  { rewrite Hperm. by apply elem_of_cons; right. }
  by apply (heap_root_min st h r Hh Hr k x).
Qed.

(** X10. [heap.Push] on the timeout heap never panics: on any slice built
    by [heap.Push] and [heap.Pop] it returns a slice that holds the new
    record and the old ones, each as often as before, and that is in heap
    order again. *)
Theorem heap_Push_adds_one st ops h x :
  heap_run st ops [] = Some h →
  ∃ h', heap_Push st h x = Some h' ∧ h' ≡ₚ x :: h ∧ is_heap st h' ∧
        Len h' = S (Len h).
Proof.
  intros Hh%heap_run_nil_is_heap.
  destruct (heap_Push_spec st h x Hh) as (h' & Hp & Hh' & Hperm).
  exists h'. split_and!; try done. unfold Len. by rewrite Hperm.
Qed.

Lemma heap_Push_adds_one_witness :
  ∃ h', heap_Push [mkTimeout 0 30 0; mkTimeout 1 10 0; mkTimeout 2 20 0]
                  [2%nat; 0%nat] 1 = Some h' ∧ h' ≡ₚ [1%nat; 2%nat; 0%nat].
Proof.
  destruct (heap_Push_adds_one [mkTimeout 0 30 0; mkTimeout 1 10 0; mkTimeout 2 20 0]
              [HPush 2; HPush 0]%nat [2; 0]%nat 1%nat ltac:(vm_compute; reflexivity))
    as (h' & H1 & H2 & _).
  exists h'. by split.
Defined.

(** X11. [heap.Pop] on the timeout heap: on the empty slice it panics; on
    a non-empty slice built by [heap.Push] and [heap.Pop] it returns the
    record that [peek] shows, whose deadline no record left in the heap
    precedes, and leaves the other records, each as often as before, in
    heap order. *)
Theorem heap_Pop_takes_earliest st ops h :
  heap_run st ops [] = Some h →
  (h = [] → heap_Pop st h = None) ∧
  (h ≠ [] → ∃ r h', heap_Pop st h = Some (r, h') ∧ peek h = Some r ∧
                    h ≡ₚ r :: h' ∧ is_heap st h' ∧
                    ∀ x, x ∈ h' → t (deref st r) ≤ t (deref st x)).
Proof.
  intros Hh%heap_run_nil_is_heap. split; [by intros ->|]. intros Hne.
  destruct (heap_Pop_spec st h Hh Hne) as (r & h' & Hp & Hr & Hperm & Hh').
  exists r, h'. split_and!; try done. by apply (heap_min_rest st r h h').
Qed.

Lemma heap_Pop_takes_earliest_witness :
  ∃ h', heap_Pop [mkTimeout 0 30 0; mkTimeout 1 10 0; mkTimeout 2 20 0]
                 [1%nat; 0%nat; 2%nat] = Some (1%nat, h') ∧ h' ≡ₚ [0%nat; 2%nat].
Proof.
  destruct (proj2 (heap_Pop_takes_earliest
                     [mkTimeout 0 30 0; mkTimeout 1 10 0; mkTimeout 2 20 0]
                     [HPush 0; HPush 1; HPush 2]%nat [1; 0; 2]%nat
                     ltac:(vm_compute; reflexivity)) ltac:(discriminate))
    as (r & h' & H1 & H2 & H3 & _).
  vm_compute in H2. injection H2 as <-.
  exists h'. split; [exact H1|]. by apply (inj (cons 1%nat)).
Defined.

Lemma drain_spec st n : ∀ h,
  is_heap st h → (n ≤ length h)%nat →
  ∃ rs h', drain st n h = Some (rs, h') ∧ length rs = n ∧ h ≡ₚ rs ++ h' ∧
           is_heap st h' ∧ by_deadline st rs ∧
           ∀ a x, a ∈ rs → x ∈ h' → key st a ≤ key st x.
Proof.
  induction n as [|n IH]; intros h Hh Hn; simpl.
  { exists [], h. split_and!; try done.
    intros a x Ha. by apply elem_of_nil in Ha. }
  assert (Hne : h ≠ []) by (intros ->; simpl in Hn; lia).
  destruct (heap_Pop_spec st h Hh Hne) as (r & h1 & Hp & Hr & Hperm & Hh1).
  rewrite Hp.
  assert (Hlen : length h = S (length h1)) by (by rewrite Hperm).
  destruct (IH h1 Hh1 ltac:(lia)) as (rs & h' & Hd & Hl & Hperm' & Hh' & Hs & Hle).
  rewrite Hd. exists (r :: rs), h'.
  assert (Hmin : ∀ x, x ∈ h1 → key st r ≤ key st x)
    by (by apply (heap_min_rest st r h h1)).
  split_and!; try done.
  - simpl. by rewrite Hl.
  - by rewrite Hperm, Hperm'.
  - intros i j a b Hij Ha Hb. destruct i as [|i], j as [|j]; simpl in *.
    + simplify_eq. lia.
    + simplify_eq. apply Hmin. rewrite Hperm'. apply elem_of_app. left.
      by eapply list_elem_of_lookup_2.
    + lia.
    + apply (Hs i j); [lia|done|done].
  - intros a x [->|Ha]%elem_of_cons Hx.
    + apply Hmin. rewrite Hperm'. apply elem_of_app. by right.
    + by apply Hle.
Qed.

(** X12. Emptying the heap with [heap.Pop] sorts the timeouts: from a
    slice built by [heap.Push] and [heap.Pop], as many calls of
    [heap.Pop] as it has records all succeed, leave it empty, and return
    every record once, in the order of the deadlines. *)
Theorem heap_Pop_in_deadline_order st ops h :
  heap_run st ops [] = Some h →
  ∃ rs, drain st (Len h) h = Some (rs, []) ∧ rs ≡ₚ h ∧ by_deadline st rs.
Proof.
  intros Hh%heap_run_nil_is_heap.
  destruct (drain_spec st (length h) h Hh ltac:(lia))
    as (rs & h' & Hd & Hl & Hperm & _ & Hs & _).
  assert (h' = []) as ->.
  { apply nil_length_inv. apply Permutation_length in Hperm.
    rewrite length_app in Hperm. lia. }
  exists rs. rewrite app_nil_r in Hperm. by split_and!.
Qed.

Lemma heap_Pop_in_deadline_order_witness :
  drain [mkTimeout 0 30 0; mkTimeout 1 10 0; mkTimeout 2 20 0] 3 [1%nat; 0%nat; 2%nat]
  = Some ([1%nat; 2%nat; 0%nat], []) ∧
  by_deadline [mkTimeout 0 30 0; mkTimeout 1 10 0; mkTimeout 2 20 0]
              [1%nat; 2%nat; 0%nat].
Proof.
  split; [vm_compute; reflexivity|].
  destruct (heap_Pop_in_deadline_order
              [mkTimeout 0 30 0; mkTimeout 1 10 0; mkTimeout 2 20 0]
              [HPush 0; HPush 1; HPush 2]%nat [1; 0; 2]%nat
              ltac:(vm_compute; reflexivity)) as (rs & H1 & _ & H3).
  vm_compute in H1. injection H1 as <-. exact H3.
Defined.

(** ** What [AddTimeout] and [Stop] do *)

(** X13. The heap holds exactly the timeouts that were pushed and not yet
    popped: no record is in [d.timeouts] twice, every record in it is
    allocated, every [*Timeout] that [AddTimeout] has returned is in the
    heap or has been popped by the daemon, and [heap.Push] in
    [AddTimeout] never panics. *)
Theorem heap_holds_pending_timeouts now acts s :
  run acts (NewDaemon now) = Some s →
  pushed (trace s) ≡ₚ timeouts s ++ popped (trace s) ∧
  NoDup (timeouts s) ∧
  (∀ r, r ∈ timeouts s → (r < length (store s))%nat) ∧
  (∀ c r, EAddRet c r ∈ trace s → r ∈ timeouts s ∨ r ∈ popped (trace s)) ∧
  (∀ c, cpc s c ≠ CPanic).
Proof.
  intros Hrun.
  destruct (Inv_run _ _ _ Hrun)
    as (_ & (Hv & _ & _ & _ & Hnp) & _ & _ & _ & (Hperm & Hnd & _ & _ & _ & _ & Hret) & _).
  split_and!; try done.
  - rewrite Hperm in Hnd. by apply NoDup_app in Hnd as (? & _).
  - intros c r Hr. apply Hret in Hr. rewrite Hperm in Hr. by apply elem_of_app.
Qed.

Lemma heap_holds_pending_timeouts_witness :
  ∃ s, run run_two_timeouts (NewDaemon 0) = Some s ∧
       timeouts s = [] ∧ popped (trace s) = [0%nat; 1%nat] ∧
       pushed (trace s) ≡ₚ timeouts s ++ popped (trace s).
Proof.
  eexists. split; [vm_compute; reflexivity|]. split; [vm_compute; reflexivity|].
  split; [vm_compute; reflexivity|].
  match goal with
  | |- pushed (trace ?s) ≡ₚ _ =>
      apply (heap_holds_pending_timeouts 0 run_two_timeouts s
               ltac:(vm_compute; reflexivity))
  end.
Defined.

Lemma heap_new_min_is_root st h h' r :
  is_heap st h' → h' ≡ₚ r :: h → (∀ x, x ∈ h → key st r < key st x) →
  peek h' = Some r.
Proof.
  intros Hh Hperm Hlt. unfold peek.
  destruct (h' !! 0%nat) as [y|] eqn:Hy.
  - f_equal.
    assert (Hr : r ∈ h') by (rewrite Hperm; by apply elem_of_cons; left).
    apply list_elem_of_lookup_1 in Hr as [k Hk].
    pose proof (heap_root_min st h' y Hh Hy k r Hk) as Hle.
    assert (Hin : y ∈ r :: h).
    { rewrite <- Hperm. by eapply list_elem_of_lookup_2. }
    apply elem_of_cons in Hin as [->|Hin]; [done|].
    specialize (Hlt y Hin). lia.
  - apply lookup_ge_None in Hy. apply Permutation_length in Hperm.
    simpl in Hperm. lia.
Qed.

Lemma run_cons_Some s a s1 acts :
  step s a = Some s1 → run (a :: acts) s = run acts s1.
Proof. intros H. simpl. by rewrite H. Qed.

Lemma AddTimeout_run s c f0 t0 :
  Inv s → Inv2 s →
  cpc s c = CIdle → mu s = None →
  ∃ s', run (AddTimeout c f0 t0) s = Some s' ∧
    store s' = store s ++ [mkTimeout f0 t0 0] ∧
    timeouts s' ≡ₚ length (store s) :: timeouts s ∧
    is_heap (store s') (timeouts s') ∧
    ((∀ x, x ∈ timeouts s → t0 < t (deref (store s) x)) →
     peek (timeouts s') = Some (length (store s))) ∧
    trace s' = EAddRet c (length (store s)) :: EPush (length (store s)) :: trace s ∧
    wake s' = true ∧ cond s' = false ∧ mu s' = None ∧ cpc s' c = CIdle ∧
    wpc s' = wpc s ∧ stopped s' = stopped s ∧ locker s' = locker s ∧
    clock s' = clock s.
Proof.
  intros HI (_ & (Hcd & _) & _) Hidle Hmu.
  set (r := length (store s)).
  set (s1 := set_cpc c (A149 r) (set_store (store s ++ [mkTimeout f0 t0 0]) s)).
  assert (H1 : step s (ACallAddTimeout c f0 t0) = Some s1).
  { simpl. unfold call_AddTimeout. by rewrite Hidle. }
  set (s2 := set_cpc c (A150 r) (set_mu (Some (Client c)) s1)).
  assert (H2 : step s1 (AClient c) = Some s2).
  { simpl. unfold client, Lock_mu. simpl. by rewrite upd_eq, Hmu. }
  destruct (Inv_step _ _ _ (Inv_step _ _ _ HI H1) H2) as (_ & (Hv & _ & _ & Hheap & _) & _).
  destruct HI as (_ & (Hv0 & _) & _).
  clear H1 H2. subst s1 s2 r.
  destruct s as [lk ts cd wk st m sto clk pc cp tr].
  simpl in Hidle, Hmu, Hheap, Hv, Hv0, Hcd. subst m.
  destruct (heap_Push_spec _ _ (length sto) Hheap) as (h & Hp & Hh & Hperm).
  assert (Hc : (if (Len h =? 1)%nat then false else cd) = false).
  { destruct (Len h =? 1)%nat eqn:E; [done|]. destruct cd; [|done].
    destruct Hcd as (_ & -> & _); [done|]. apply Permutation_length in Hperm.
    unfold Len in *. simpl in *. rewrite Hperm in E. done. }
  unfold AddTimeout.
  erewrite run_cons_Some; [|simpl; unfold call_AddTimeout; simpl; rewrite Hidle; reflexivity].
  erewrite run_cons_Some;
    [|simpl; unfold client, Lock_mu; simpl; rewrite upd_eq; simpl; reflexivity].
  erewrite run_cons_Some;
    [|simpl; unfold client; simpl; rewrite upd_eq; simpl; rewrite Hp; reflexivity].
  erewrite run_cons_Some;
    [|simpl; unfold client; simpl; rewrite upd_eq; simpl; reflexivity].
  erewrite run_cons_Some;
    [|simpl; unfold client; simpl; rewrite upd_eq; simpl; reflexivity].
  erewrite run_cons_Some;
    [|simpl; unfold client; simpl; rewrite upd_eq; simpl; reflexivity].
  eexists. split; [reflexivity|].
  destruct (Len h =? 1)%nat; simpl in *; subst; rewrite ?upd_eq.
  all: split_and!; try done.
  all: intros Hlt; apply (heap_new_min_is_root _ ts h _ Hh Hperm).
  all: intros x Hx; unfold key.
  all: rewrite (deref_app sto _ x) by (by apply Hv0).
  all: unfold deref; rewrite lookup_app_r, Nat.sub_diag by lia; simpl.
  all: by apply Hlt.
Qed.

(** X14. A call of [AddTimeout(f, t)] that is not interleaved with other
    goroutines, made while [d.mu] is free, runs to its return without
    blocking or panicking.  It allocates one record with callback [f],
    deadline [t] and the cancel flag clear, adds it to the heap, which
    stays in heap order, leaves a token in [d.wake] and nobody waiting on
    [d.cond], and touches neither [d.locker] nor [d.stopped].  If the
    deadline is before every deadline in the heap, the new record is the
    one [peek] shows next. *)
Theorem AddTimeout_schedules now acts s c f0 t0 :
  run acts (NewDaemon now) = Some s →
  cpc s c = CIdle → mu s = None →
  ∃ s', run (AddTimeout c f0 t0) s = Some s' ∧
    store s' = store s ++ [mkTimeout f0 t0 0] ∧
    timeouts s' ≡ₚ length (store s) :: timeouts s ∧
    is_heap (store s') (timeouts s') ∧
    ((∀ x, x ∈ timeouts s → t0 < t (deref (store s) x)) →
     peek (timeouts s') = Some (length (store s))) ∧
    trace s' = EAddRet c (length (store s)) :: EPush (length (store s)) :: trace s ∧
    wake s' = true ∧ cond s' = false ∧ mu s' = None ∧ cpc s' c = CIdle ∧
    wpc s' = wpc s ∧ stopped s' = stopped s ∧ locker s' = locker s ∧
    clock s' = clock s.
Proof.
  intros Hrun. apply AddTimeout_run; [by eapply Inv_run|by eapply Inv2_run].
Qed.

Lemma AddTimeout_schedules_witness :
  ∃ s s', run run_one_timeout (NewDaemon 0) = Some s ∧
          run (AddTimeout 1 8 20) s = Some s' ∧
          store s' = [mkTimeout 7 5 0; mkTimeout 8 20 0] ∧ timeouts s' = [1%nat].
Proof.
  eexists.
  match goal with
  | |- ∃ s', run _ (NewDaemon 0) = Some ?s ∧ _ =>
      destruct (AddTimeout_schedules 0 run_one_timeout s 1 8 20
                  ltac:(vm_compute; reflexivity) ltac:(vm_compute; reflexivity)
                  ltac:(vm_compute; reflexivity))
        as (s' & H1 & _)
  end.
  exists s'. split; [vm_compute; reflexivity|]. split; [exact H1|].
  vm_compute in H1. injection H1 as <-. split; vm_compute; reflexivity.
Defined.

(** X15. A call of [Stop()] that is not interleaved with other
    goroutines, made while [d.mu] is free, runs to its return without
    blocking: it sets [d.stopped], leaves a token in [d.wake] and nobody
    waiting on [d.cond], and changes neither the heap, nor any timeout,
    nor [d.locker]. *)
Theorem Stop_stops now acts s c :
  run acts (NewDaemon now) = Some s →
  cpc s c = CIdle → mu s = None →
  ∃ s', run (Stop c) s = Some s' ∧
    stopped s' = true ∧ wake s' = true ∧ cond s' = false ∧ mu s' = None ∧
    cpc s' c = CIdle ∧ trace s' = EStopRet c :: trace s ∧
    timeouts s' = timeouts s ∧ store s' = store s ∧ locker s' = locker s ∧
    wpc s' = wpc s.
Proof.
  intros Hrun Hidle Hmu.
  destruct (Inv2_run _ _ _ Hrun) as (_ & (Hcd & _) & _). clear Hrun.
  destruct s as [lk ts cd wk st m sto clk pc cp tr].
  simpl in Hidle, Hmu, Hcd. subst m.
  unfold Stop.
  erewrite run_cons_Some; [|simpl; unfold call_Stop; simpl; rewrite Hidle; reflexivity].
  erewrite run_cons_Some;
    [|simpl; unfold client, Lock_mu; simpl; rewrite upd_eq; simpl; reflexivity].
  do 4 (erewrite run_cons_Some;
    [|simpl; unfold client; simpl; rewrite upd_eq; simpl; reflexivity]).
  eexists. split; [reflexivity|].
  destruct ts as [|x ts]; simpl; rewrite ?upd_eq; split_and!; try done.
  destruct cd; [|done]. by destruct Hcd as (_ & ? & _).
Qed.

Lemma Stop_stops_witness :
  ∃ s s', run run_one_timeout (NewDaemon 0) = Some s ∧
          run (Stop 1) s = Some s' ∧ stopped s' = true ∧ wake s' = true.
Proof.
  eexists.
  match goal with
  | |- ∃ s', run _ (NewDaemon 0) = Some ?s ∧ _ =>
      destruct (Stop_stops 0 run_one_timeout s 1
                  ltac:(vm_compute; reflexivity) ltac:(vm_compute; reflexivity)
                  ltac:(vm_compute; reflexivity))
        as (s' & H1 & H2 & H3 & _)
  end.
  exists s'. split; [vm_compute; reflexivity|]. by split_and!.
Defined.

(** ** One turn of the daemon loop *)

Ltac daemon_step tac :=
  erewrite run_cons_Some;
  [|simpl; unfold daemon, Lock_mu, Lock_locker; simpl; tac; reflexivity].

(** X16. A due timeout is served: if the daemon goroutine stands at the
    top of its loop with [d.mu] free, the daemon is not stopped and the
    deadline of the record [peek] shows is behind the clock, then the
    daemon, running by itself, pops that record and is back at the top of
    its loop with [d.mu] free.  If the record is not cancelled and
    [d.locker] is free, this takes fourteen statements, and the callback
    is called once, between [d.locker.Lock()] and [d.locker.Unlock()]; if
    it is cancelled, it takes six, and neither the callback nor [d.locker]
    is touched. *)
Theorem daemon_serves_due_timeout now acts s r :
  run acts (NewDaemon now) = Some s →
  wpc s = W166 → mu s = None → stopped s = false →
  peek (timeouts s) = Some r → t (deref (store s) r) < clock s →
  ∃ h, heap_Pop (store s) (timeouts s) = Some (r, h) ∧
    (cancel (deref (store s) r) = 0 → locker s = None →
     ∃ s', run (daemon_n 14) s = Some s' ∧
       trace s' = [EUnlock MInt; EUnlock MExt; EReturn r; EFire r (clock s);
                   ELock MInt; ELock MExt; EUnlock MInt; EPop r; ELock MInt]
                  ++ trace s ∧
       timeouts s' = h ∧ wpc s' = W166 ∧ mu s' = None ∧ locker s' = None) ∧
    (cancel (deref (store s) r) ≠ 0 →
     ∃ s', run (daemon_n 6) s = Some s' ∧
       trace s' = [EUnlock MInt; EPop r; ELock MInt] ++ trace s ∧
       timeouts s' = h ∧ wpc s' = W166 ∧ mu s' = None ∧ locker s' = locker s).
Proof.
  intros Hrun Hpc Hmu Hst Hpeek Hdue.
  destruct (Inv_run _ _ _ Hrun) as (_ & (_ & _ & _ & Hheap & _) & _). clear Hrun.
  assert (Hne : timeouts s ≠ []) by (by intros E; rewrite E in Hpeek).
  destruct (heap_Pop_spec _ _ Hheap Hne) as (r' & h & Hpop & Hr' & _).
  unfold peek in Hpeek. rewrite Hpeek in Hr'. injection Hr' as <-.
  exists h. split; [done|].
  destruct s as [lk ts cd wk st m sto clk pc cp tr].
  simpl in Hpc, Hmu, Hst, Hpeek, Hdue, Hpop, Hne. subst pc m st.
  assert (Hlen : (Len ts =? 0)%nat = false).
  { destruct ts; [done|reflexivity]. }
  assert (Haft : After clk (t (deref sto r)) = true).
  { unfold After. by apply Z.ltb_lt. }
  split.
  - intros Hc Hlk. simpl in Hc, Hlk. subst lk. apply Z.eqb_eq in Hc.
    unfold daemon_n. simpl replicate.
    daemon_step idtac. daemon_step ltac:(rewrite Hlen).
    daemon_step ltac:(unfold peek; rewrite Hpeek, Haft).
    daemon_step ltac:(rewrite Hpop). daemon_step ltac:(rewrite Hc).
    do 4 daemon_step idtac. daemon_step ltac:(rewrite Hc).
    do 4 daemon_step idtac.
    eexists. split; [reflexivity|]. by split_and!.
  - intros Hc. simpl in Hc. apply Z.eqb_neq in Hc.
    unfold daemon_n. simpl replicate.
    daemon_step idtac. daemon_step ltac:(rewrite Hlen).
    daemon_step ltac:(unfold peek; rewrite Hpeek, Haft).
    daemon_step ltac:(rewrite Hpop). daemon_step ltac:(rewrite Hc).
    daemon_step idtac.
    eexists. split; [reflexivity|]. by split_and!.
Qed.

Lemma daemon_serves_due_timeout_witness :
  ∃ s s', run (AddTimeout 0 7 5 ++ [ATick 6]) (NewDaemon 0) = Some s ∧
          run (daemon_n 14) s = Some s' ∧ fired (trace s') = [0%nat] ∧
          timeouts s' = [].
Proof.
  eexists.
  match goal with
  | |- ∃ s', run ?acts (NewDaemon 0) = Some ?s ∧ _ =>
      destruct (daemon_serves_due_timeout 0 acts s 0%nat
                  ltac:(vm_compute; reflexivity) ltac:(vm_compute; reflexivity)
                  ltac:(vm_compute; reflexivity) ltac:(vm_compute; reflexivity)
                  ltac:(vm_compute; reflexivity) ltac:(vm_compute; reflexivity))
        as (h & Hpop & Hfire & _)
  end.
  destruct (Hfire ltac:(vm_compute; reflexivity) ltac:(vm_compute; reflexivity))
    as (s' & H1 & H2 & H3 & _).
  exists s'. split; [vm_compute; reflexivity|]. split; [exact H1|].
  vm_compute in Hpop. injection Hpop as <-.
  split; [by rewrite H2|exact H3].
Defined.

(** ** Blocking *)

Lemma daemon_step_holding_mu s :
  Inv s → mu s = Some Worker →
  ∃ s1, step s ADaemon = Some s1 ∧
        (mu s1 = None ∨
         (mu s1 = Some Worker ∧ (mu_left (wpc s1) < mu_left (wpc s))%nat)).
Proof.
  intros ((Hwm & _) & (_ & _ & _ & Hheap & _) & (Hnp & Hne & _) & _) Hmu.
  rewrite Hmu in Hwm. rewrite bool_decide_eq_true_2 in Hwm by done.
  simpl. unfold daemon.
  destruct (wpc s) eqn:Hpc; simpl in Hwm; try done; simpl.
  all: try (eexists; split; [reflexivity|]; simpl;
            repeat match goal with
                   | |- context [if ?b then _ else _] => destruct b
                   end; simpl; first [by left|right; split; [done|lia]]).
  - specialize (Hne eq_refl). destruct (timeouts s) as [|r h] eqn:E; [done|]. simpl.
    destruct (After _ _); eexists; (split; [reflexivity|]); simpl;
      right; (split; [done|lia]).
  - specialize (Hne eq_refl).
    destruct (heap_Pop_spec _ _ Hheap Hne) as (r & h & -> & _).
    eexists; split; [reflexivity|]. simpl. right. split; [done|lia].
Qed.

Lemma daemon_releases_mu k : ∀ s,
  Inv s → mu s = Some Worker → (mu_left (wpc s) ≤ k)%nat →
  ∃ n s', (0 < n ≤ k)%nat ∧ run (daemon_n n) s = Some s' ∧ mu s' = None.
Proof.
  induction k as [|k IH]; intros s HI Hmu Hk.
  { destruct (wpc s); simpl in Hk; lia. }
  destruct (daemon_step_holding_mu s HI Hmu) as (s1 & Hs & [Hn|[Hw Hlt]]).
  - exists 1%nat, s1. split; [lia|].
    change (daemon_n 1) with (ADaemon :: daemon_n 0).
    by rewrite (run_cons_Some _ _ _ _ Hs).
  - destruct (IH s1) as (n & s' & Hn & Hrun & Hmu'); [by eapply Inv_step|done|lia|].
    exists (S n), s'. split; [lia|].
    change (daemon_n (S n)) with (ADaemon :: daemon_n n).
    by rewrite (run_cons_Some _ _ _ _ Hs).
Qed.

(** X17. The daemon goroutine never blocks while it holds [d.mu], and it
    holds it for at most six of its statements, the callback among them:
    so a call of [AddTimeout] or [Stop], which waits for [d.mu], is held
    up by the daemon for no longer than that. *)
Theorem daemon_holds_mu_briefly now acts s :
  run acts (NewDaemon now) = Some s →
  mu s = Some Worker →
  ∃ n s', (0 < n ≤ 6)%nat ∧ run (daemon_n n) s = Some s' ∧ mu s' = None.
Proof.
  intros Hrun Hmu. apply daemon_releases_mu; [by eapply Inv_run|done|].
  destruct (wpc s); simpl; lia.
Qed.

Lemma daemon_holds_mu_briefly_witness :
  ∃ s n s', run run_Stop_during_callback (NewDaemon 1) = Some s ∧
            mu s = Some Worker ∧ cpc s 1%nat = S130 ∧
            (0 < n ≤ 6)%nat ∧ run (daemon_n n) s = Some s' ∧ mu s' = None.
Proof.
  eexists.
  match goal with
  | |- ∃ n s', run ?acts (NewDaemon 1) = Some ?s ∧ _ =>
      destruct (daemon_holds_mu_briefly 1 acts s
                  ltac:(vm_compute; reflexivity) ltac:(vm_compute; reflexivity))
        as (n & s' & H1 & H2 & H3)
  end.
  exists n, s'. split; [vm_compute; reflexivity|].
  split; [vm_compute; reflexivity|]. split; [vm_compute; reflexivity|]. done.
Defined.

(** X18. The daemon goroutine is blocked only where the code means it to
    wait: after its return, in [d.cond.Wait()] on an empty heap that is
    not stopped, in the select at line 194, at a [d.mu.Lock()] while a
    caller of [AddTimeout] or [Stop] holds [d.mu], or at the
    [d.locker.Lock()] of line 212 while another goroutine holds
    [d.locker].  It never panics and never waits for a mutex it holds
    itself. *)
Theorem daemon_blocks_only_to_wait now acts s :
  run acts (NewDaemon now) = Some s →
  step s ADaemon = None →
  wpc s = WRet ∨
  (wpc s = W174w ∧ timeouts s = [] ∧ stopped s = false) ∨
  (∃ e, wpc s = W195 e) ∨
  (∃ c, mu s = Some (Client c) ∧ w_holds_mu (wpc s) = false) ∨
  (∃ c to, locker s = Some (Client c) ∧ wpc s = W212 to).
Proof.
  intros Hrun Hblk.
  destruct (Inv_run _ _ _ Hrun) as ((Hwm & _ & Hwl) & _ & (Hnp & _) & _).
  destruct (Inv2_run _ _ _ Hrun) as (_ & (Hcd & _) & _).
  simpl in Hblk. unfold daemon, Lock_mu, Lock_locker in Hblk.
  destruct (wpc s) eqn:Hpc; simpl in *; try done;
    repeat case_match; simpl in *; try done.
  all: symmetry in Hwm, Hwl;
       first [apply bool_decide_eq_true in Hwm|apply bool_decide_eq_false in Hwm];
       first [apply bool_decide_eq_true in Hwl|apply bool_decide_eq_false in Hwl].
  all: try match goal with
       | H : mu _ = Some ?x |- _ =>
           destruct x as [|c]; [done|];
           do 3 right; left; by exists c
       end.
  all: try match goal with
       | H : locker _ = Some ?x |- _ =>
           destruct x as [|c]; [done|];
           do 4 right; by eexists c, _
       end.
  - right; left. by destruct Hcd as (_ & ? & ?).
  - right; right; left. by eexists.
  - by left.
Qed.

Lemma daemon_blocks_only_to_wait_witness :
  ∃ s, run (run_Cancel_under_lock ++ [ATick 6] ++ daemon_n 6) (NewDaemon 0) = Some s ∧
       step s ADaemon = None ∧
       ∃ c to, locker s = Some (Client c) ∧ wpc s = W212 to.
Proof.
  eexists. split; [vm_compute; reflexivity|]. split; [vm_compute; reflexivity|].
  match goal with
  | |- ∃ c to, locker ?s = _ ∧ _ =>
      destruct (daemon_blocks_only_to_wait 0
                  (run_Cancel_under_lock ++ [ATick 6] ++ daemon_n 6) s
                  ltac:(vm_compute; reflexivity) ltac:(vm_compute; reflexivity))
        as [H|[[H _]|[[e H]|[(c & H & _)|H]]]]
  end.
  - vm_compute in H. discriminate.
  - vm_compute in H. discriminate.
  - vm_compute in H. discriminate.
  - vm_compute in H. discriminate.
  - exact H.
Defined.

(** ** [NowMonotonic] *)

Lemma wrap64_id z : - 2 ^ 63 ≤ z < 2 ^ 63 → GoTime.wrap64 z = z.
Proof. intros Hz. unfold GoTime.wrap64. rewrite Z.mod_small; lia. Qed.

Lemma wrap64_add_l x y : GoTime.wrap64 (GoTime.wrap64 x + y) = GoTime.wrap64 (x + y).
Proof.
  unfold GoTime.wrap64. f_equal.
  replace ((x + 2 ^ 63) mod 2 ^ 64 - 2 ^ 63 + y + 2 ^ 63)
    with ((x + 2 ^ 63) mod 2 ^ 64 + y) by lia.
  rewrite Z.add_mod_idemp_l by lia. f_equal. lia.
Qed.

Lemma NowMonotonic_pair now :
  - 2 ^ 63 ≤ now < 2 ^ 63 →
  0 ≤ GoTime.nsec (GoTime.NowMonotonic now) < 1000000000 ∧
  GoTime.sec (GoTime.NowMonotonic now) * 1000000000
    + GoTime.nsec (GoTime.NowMonotonic now) = now.
Proof.
  intros Hn. unfold GoTime.NowMonotonic, GoTime.Unix.
  pose proof (Z.quot_rem' now 1000000000) as Hqr.
  assert (Hr' : - 1000000000 < Z.rem now 1000000000 < 1000000000) by lia.
  assert (Hsg : 0 ≤ now → 0 ≤ Z.rem now 1000000000) by lia.
  set (q := Z.quot now 1000000000) in *. set (r := Z.rem now 1000000000) in *.
  destruct (Z.ltb_spec r 0) as [Hneg|Hpos]; simpl.
  - assert (Z.quot r 1000000000 = 0) as -> by (apply Z.quot_small_iff; lia).
    rewrite Z.add_0_r, Z.mul_0_l. rewrite (wrap64_id 0) by lia.
    rewrite Z.sub_0_r. rewrite (wrap64_id q), (wrap64_id r) by lia.
    destruct (Z.ltb_spec r 0); [|lia]. simpl.
    rewrite (wrap64_id (q - 1)), (wrap64_id (r + 1000000000)) by lia. lia.
  - destruct (Z.leb_spec 1000000000 r); [lia|]. simpl. lia.
Qed.

(** X19. [NowMonotonic] keeps the order of the clock: for readings of
    [nanotime] in the range of int64, the [time.Time] it returns has its
    nanoseconds within the second, [UnixNano] gives the reading back, and
    [After], [Before] and [Equal] on two results are the comparisons of
    the two readings. *)
Theorem NowMonotonic_keeps_order a b :
  - 2 ^ 63 ≤ a < 2 ^ 63 → - 2 ^ 63 ≤ b < 2 ^ 63 →
  0 ≤ GoTime.nsec (GoTime.NowMonotonic a) < 1000000000 ∧
  GoTime.UnixNano (GoTime.NowMonotonic a) = a ∧
  GoTime.After (GoTime.NowMonotonic a) (GoTime.NowMonotonic b) = (b <? a) ∧
  GoTime.Before (GoTime.NowMonotonic a) (GoTime.NowMonotonic b) = (a <? b) ∧
  GoTime.Equal (GoTime.NowMonotonic a) (GoTime.NowMonotonic b) = (a =? b).
Proof.
  intros Ha Hb.
  destruct (NowMonotonic_pair a Ha) as (Hna & Hea).
  destruct (NowMonotonic_pair b Hb) as (Hnb & Heb).
  unfold GoTime.After, GoTime.Before, GoTime.Equal, GoTime.UnixNano.
  set (ta := GoTime.NowMonotonic a) in *. set (tb := GoTime.NowMonotonic b) in *.
  split; [done|]. split_and!.
  - rewrite wrap64_add_l, Hea. by apply wrap64_id.
  - destruct (Z.ltb_spec (GoTime.sec tb) (GoTime.sec ta)),
             (Z.eqb_spec (GoTime.sec ta) (GoTime.sec tb)),
             (Z.ltb_spec (GoTime.nsec tb) (GoTime.nsec ta)),
             (Z.ltb_spec b a); simpl; try done; lia.
  - destruct (Z.ltb_spec (GoTime.sec ta) (GoTime.sec tb)),
             (Z.eqb_spec (GoTime.sec ta) (GoTime.sec tb)),
             (Z.ltb_spec (GoTime.nsec ta) (GoTime.nsec tb)),
             (Z.ltb_spec a b); simpl; try done; lia.
  - destruct (Z.eqb_spec (GoTime.sec ta) (GoTime.sec tb)),
             (Z.eqb_spec (GoTime.nsec ta) (GoTime.nsec tb)),
             (Z.eqb_spec a b); simpl; try done; lia.
Qed.

Lemma NowMonotonic_keeps_order_witness :
  GoTime.NowMonotonic (-1) = GoTime.mkTime (-1) 999999999 ∧
  GoTime.After (GoTime.NowMonotonic 1500000000) (GoTime.NowMonotonic (-1)) = true.
Proof.
  split; [vm_compute; reflexivity|].
  rewrite (proj1 (proj2 (proj2 (NowMonotonic_keeps_order 1500000000 (-1)
                                  ltac:(lia) ltac:(lia))))).
  reflexivity.
Defined.

Lemma daemon_step_holding_locker s :
  Inv s → locker s = Some Worker → (∀ c, mu s ≠ Some (Client c)) →
  ∃ s1, step s ADaemon = Some s1 ∧ (∀ c, mu s1 ≠ Some (Client c)) ∧
        (locker s1 = None ∨
         (locker s1 = Some Worker ∧
          (locker_left (wpc s1) < locker_left (wpc s))%nat)).
Proof.
  intros ((Hwm & _ & Hwl) & _) Hlk Hmu.
  rewrite Hlk in Hwl. rewrite bool_decide_eq_true_2 in Hwl by done.
  simpl. unfold daemon, Lock_mu.
  destruct (wpc s) eqn:Hpc; simpl in Hwl, Hwm; try done; simpl.
  all: symmetry in Hwm;
       first [apply bool_decide_eq_true in Hwm|apply bool_decide_eq_false in Hwm].
  all: try (destruct (mu s) as [[|c]|] eqn:E; [done|by destruct (Hmu c)|]; simpl).
  all: eexists; split; [reflexivity|]; simpl;
       repeat match goal with
              | |- context [if ?b then _ else _] => destruct b
              end; simpl.
  all: split;
       [try match goal with E : mu _ = _ |- _ => rewrite E end; done|];
       first [by left|right; split; [done|lia]].
Qed.

(** X20. The daemon goroutine holds [d.locker] only for a bounded stretch:
    from any state in which it holds it, unless a caller of [AddTimeout]
    or [Stop] holds [d.mu], it unlocks [d.locker] within six of its
    statements, the callback among them. *)
Theorem daemon_holds_locker_briefly now acts s :
  run acts (NewDaemon now) = Some s →
  locker s = Some Worker →
  (∀ c, mu s ≠ Some (Client c)) →
  ∃ n s', (0 < n ≤ 6)%nat ∧ run (daemon_n n) s = Some s' ∧ locker s' = None.
Proof.
  intros Hrun Hlk Hmu. apply Inv_run in Hrun.
  assert (Hk : (locker_left (wpc s) ≤ 6)%nat) by (destruct (wpc s); simpl; lia).
  revert Hk. generalize 6%nat as k. intros k. revert s Hrun Hlk Hmu.
  induction k as [|k IH]; intros s HI Hlk Hmu Hk.
  { destruct (wpc s); simpl in Hk; lia. }
  destruct (daemon_step_holding_locker s HI Hlk Hmu) as (s1 & Hs & Hmu1 & [Hn|[Hw Hlt]]).
  - exists 1%nat, s1. split; [lia|].
    change (daemon_n 1) with (ADaemon :: daemon_n 0).
    by rewrite (run_cons_Some _ _ _ _ Hs).
  - destruct (IH s1) as (n & s' & Hn & Hrun & Hlk'); [by eapply Inv_step|done|done|lia|].
    exists (S n), s'. split; [lia|].
    change (daemon_n (S n)) with (ADaemon :: daemon_n n).
    by rewrite (run_cons_Some _ _ _ _ Hs).
Qed.

Lemma daemon_holds_locker_briefly_witness :
  ∃ s n s', run (AddTimeout 0 7 0 ++ daemon_n 7) (NewDaemon 1) = Some s ∧
            locker s = Some Worker ∧
            (0 < n ≤ 6)%nat ∧ run (daemon_n n) s = Some s' ∧ locker s' = None.
Proof.
  eexists.
  match goal with
  | |- ∃ n s', run ?acts (NewDaemon 1) = Some ?s ∧ _ =>
      destruct (daemon_holds_locker_briefly 1 acts s
                  ltac:(vm_compute; reflexivity) ltac:(vm_compute; reflexivity))
        as (n & s' & H1 & H2 & H3)
  end.
  - intros c. vm_compute. discriminate.
  - exists n, s'. split; [vm_compute; reflexivity|].
    split; [vm_compute; reflexivity|]. done.
Defined.

(** X21. While a callback runs, every [d.mu.Lock()] and every
    [d.locker.Lock()] blocks, whichever goroutine calls it: a call of
    [AddTimeout] or [Stop] does not get past its first statement before
    the callback has returned, so a callback that made such a call
    itself would never return. *)
Theorem no_Lock_succeeds_during_callback now acts s r :
  run acts (NewDaemon now) = Some s →
  wpc s = W233r r →
  (∀ who, Lock_mu who s = None) ∧ (∀ who, Lock_locker who s = None) ∧
  (∀ c to, cpc s c = A149 to ∨ cpc s c = S130 → step s (AClient c) = None) ∧
  (∀ c, step s (ALock c) = None).
Proof.
  intros Hrun Hpc.
  destruct (Inv_run _ _ _ Hrun) as ((Hwm & _ & Hwl) & _).
  rewrite Hpc in Hwm, Hwl. simpl in Hwm, Hwl.
  symmetry in Hwm, Hwl.
  apply bool_decide_eq_true in Hwm. apply bool_decide_eq_true in Hwl.
  assert (Hm : ∀ who, Lock_mu who s = None) by (intros; unfold Lock_mu; by rewrite Hwm).
  assert (Hl : ∀ who, Lock_locker who s = None)
    by (intros; unfold Lock_locker; by rewrite Hwl).
  split_and!; try done.
  - intros c to [Hc|Hc]; simpl; unfold client; by rewrite Hc, Hm.
  - intros c. simpl. unfold client_Lock. rewrite Hl. by destruct (cpc s c).
Qed.

Lemma no_Lock_succeeds_during_callback_witness :
  ∃ s, run (run_Stop_during_callback ++ [ACallAddTimeout 2 8 9]) (NewDaemon 1) = Some s ∧
       cpc s 1%nat = S130 ∧ step s (AClient 1) = None ∧
       cpc s 2%nat = A149 1 ∧ step s (AClient 2) = None.
Proof.
  eexists. split; [vm_compute; reflexivity|].
  match goal with
  | |- cpc ?s _ = _ ∧ _ =>
      destruct (no_Lock_succeeds_during_callback 1
                  (run_Stop_during_callback ++ [ACallAddTimeout 2 8 9]) s 0%nat
                  ltac:(vm_compute; reflexivity) ltac:(vm_compute; reflexivity))
        as (_ & _ & H & _)
  end.
  split; [vm_compute; reflexivity|]. split; [apply (H 1%nat 0%nat); by right|].
  split; [vm_compute; reflexivity|]. apply (H 2%nat 1%nat). left. vm_compute; reflexivity.
Defined.

(** ** A sooner timeout while the daemon sleeps *)

Lemma run_app_Some a : ∀ b s s1,
  run a s = Some s1 → run (a ++ b) s = run b s1.
Proof.
  induction a as [|x a IH]; intros b s s1 Hrun; simpl in *; [by simplify_eq|].
  destruct (step s x); [by apply IH|done].
Qed.

(** X22. A timeout that is added while the daemon sleeps on a later one is
    served first: the daemon goroutine sleeps in the select at line 194,
    [d.mu] and [d.locker] are free, and [AddTimeout(f, t)] is called with
    [t] before every deadline in the heap and behind the clock.  Then the
    token that [AddTimeout] left in [d.wake] wakes the daemon, which
    finds the new record at the top of the heap, pops it, and calls its
    callback, eleven statements after waking; the records it was sleeping
    on are all still in the heap. *)
Theorem sooner_timeout_preempts_sleep now acts s e c f0 t0 :
  run acts (NewDaemon now) = Some s →
  wpc s = W195 e → stopped s = false → mu s = None → locker s = None →
  cpc s c = CIdle →
  (∀ x, x ∈ timeouts s → t0 < t (deref (store s) x)) →
  t0 < clock s →
  ∃ s', run (AddTimeout c f0 t0 ++ AWake :: daemon_n 11) s = Some s' ∧
        wpc s' = W233r (length (store s)) ∧
        f (deref (store s') (length (store s))) = f0 ∧
        fired (trace s') = length (store s) :: fired (trace s) ∧
        timeouts s' ≡ₚ timeouts s.
Proof.
  intros Hrun Hpc Hst Hmu Hlk Hidle Hmin Hdue.
  destruct (Inv_Inv2_reachable now s (run_reachable _ _ _ Hrun)) as [HI HI2].
  destruct (AddTimeout_run s c f0 t0 HI HI2 Hidle Hmu)
    as (s1 & Hrun1 & Hsto & Hperm & Hheap & Hpeek & Htr & Hwk & _ & Hmu1 & _ &
        Hpc1 & Hst1 & Hlk1 & Hclk).
  specialize (Hpeek Hmin).
  rewrite (run_app_Some _ _ _ _ Hrun1).
  assert (Hne : timeouts s1 ≠ []) by (by intros E; rewrite E in Hpeek).
  destruct (heap_Pop_spec _ _ Hheap Hne) as (r' & h & Hpop & Hr' & Hperm' & _).
  unfold peek in Hpeek. rewrite Hpeek in Hr'. injection Hr' as <-.
  assert (Hh : h ≡ₚ timeouts s).
  { apply (Permutation_cons_inv (a := length (store s))). by rewrite <- Hperm', Hperm. }
  assert (Hd : deref (store s1) (length (store s)) = mkTimeout f0 t0 0).
  { rewrite Hsto. unfold deref. by rewrite lookup_app_r, Nat.sub_diag by lia. }
  rewrite Hpc, Hst, Hlk in *. clear Hrun Hrun1 HI HI2 Hperm Hperm' Hheap Hmin Hidle.
  destruct s1 as [lk ts cd wk st m sto clk pc cp tr].
  simpl in Hsto, Htr, Hwk, Hmu1, Hpc1, Hst1, Hlk1, Hclk, Hpeek, Hpop, Hd, Hne.
  subst lk wk st m pc clk tr.
  assert (Haft : After (clock s) (t (deref sto (length (store s)))) = true).
  { rewrite Hd. simpl. unfold After. by apply Z.ltb_lt. }
  assert (Hc : (cancel (deref sto (length (store s))) =? 0) = true) by (by rewrite Hd).
  erewrite run_cons_Some; [|simpl; unfold daemon_wake; simpl; reflexivity].
  unfold daemon_n. simpl replicate.
  do 2 daemon_step idtac.
  daemon_step ltac:(unfold peek; rewrite Hpeek, Haft).
  daemon_step ltac:(rewrite Hpop). daemon_step ltac:(rewrite Hc).
  do 4 daemon_step idtac. daemon_step ltac:(rewrite Hc).
  daemon_step idtac.
  eexists. split; [reflexivity|]. simpl. rewrite Hd. by split_and!.
Qed.

Lemma sooner_timeout_preempts_sleep_witness :
  ∃ s s', run run_asleep (NewDaemon 30) = Some s ∧
          timeouts s = [0%nat] ∧
          run (AddTimeout 1 8 20 ++ AWake :: daemon_n 11) s = Some s' ∧
          fired (trace s') = [1%nat] ∧ timeouts s' = [0%nat].
Proof.
  eexists.
  match goal with
  | |- ∃ s', run _ (NewDaemon 30) = Some ?s ∧ _ =>
      destruct (sooner_timeout_preempts_sleep 30 run_asleep s 50 1 8 20
                  ltac:(vm_compute; reflexivity) ltac:(vm_compute; reflexivity)
                  ltac:(vm_compute; reflexivity) ltac:(vm_compute; reflexivity)
                  ltac:(vm_compute; reflexivity) ltac:(vm_compute; reflexivity))
        as (s' & H1 & _)
  end.
  - intros x Hx. vm_compute in Hx. apply list_elem_of_In in Hx. simpl in Hx.
    destruct Hx as [<-|[]]. vm_compute. reflexivity.
  - vm_compute. reflexivity.
  - exists s'. split; [vm_compute; reflexivity|]. split; [vm_compute; reflexivity|].
    split; [exact H1|]. vm_compute in H1. injection H1 as <-.
    split; vm_compute; reflexivity.
Defined.
